(** * Tangent ray casting: visibility between circles

    A shallow embedding of [pygame_experiments/tangent raycasting/main.py]:
    [get_tangents], [circle_line_intersection], [get_first_intersection]
    and [is_visible].

    Numbers.  The Python code computes on [float] (and on [int] promoted to
    [float] by [/] and [math.sqrt]).  Here a number is a real of the
    Standard Library, so every statement below is about the exact
    arithmetic that the floating point computation approximates.  What
    Python raises instead of computing is kept: [/] raises
    [ZeroDivisionError] on a zero divisor and [math.sqrt] raises
    [ValueError] on a negative argument. *)

From Stdlib Require Import Reals Lra Psatz String List Bool Sorted.
Import ListNotations.

Open Scope R_scope.

(** ** Exceptions and the error monad *)

(** The exceptions the code can raise come from the two partial primitives
    it uses.  Python's exception hierarchy is open: [UserError] stands for
    an application-defined exception class, by name. *)
Inductive exn : Type :=
| ZeroDivisionError
| ValueError
| UserError (name : string).

Inductive result (A : Type) : Type :=
| Ok (a : A)
| Raise (e : exn).

Arguments Ok {A} a.
Arguments Raise {A} e.

Definition bind {A B : Type} (m : result A) (k : A -> result B) : result B :=
  match m with
  | Ok a => k a
  | Raise e => Raise e
  end.

Notation "x <- m ;; k" := (bind m (fun x => k))
  (at level 61, m at next level, right associativity).

(** [for x in xs: body], the loop's variables threaded as [s]; [continue]
    is a body that returns its state unchanged, an exception leaves the
    loop. *)
Fixpoint for_each {A S : Type} (xs : list A) (s : S)
  (body : S -> A -> result S) : result S :=
  match xs with
  | [] => Ok s
  | x :: xs' => s' <- body s x ;; for_each xs' s' body
  end.

(** ** Python primitives on numbers *)

Module Py.

(** [a / b] *)
Definition truediv (a b : R) : result R :=
  if Req_dec_T b 0 then Raise ZeroDivisionError else Ok (a / b).

(** [math.sqrt(x)] *)
Definition math_sqrt (x : R) : result R :=
  if Rlt_dec x 0 then Raise ValueError else Ok (sqrt x).

(** [max(a, b)]: the first argument unless the second is larger. *)
Definition max (a b : R) : R :=
  if Rgt_dec b a then b else a.

Definition lt (a b : R) : bool := if Rlt_dec a b then true else false.
Definition le (a b : R) : bool := if Rle_dec a b then true else false.
Definition gt (a b : R) : bool := if Rgt_dec a b then true else false.
Definition ge (a b : R) : bool := if Rge_dec a b then true else false.

End Py.

(** ** Data *)

(** A point is the two-element list [[x, y]]. *)
Definition point : Type := (R * R)%type.

(** A segment is the four-element list [[x1, y1, x2, y2]] that
    [get_tangents] appends and [get_first_intersection] indexes. *)
Record segment : Type := Segment {
  seg_x1 : R;   (* ray[0] *)
  seg_y1 : R;   (* ray[1] *)
  seg_x2 : R;   (* ray[2] *)
  seg_y2 : R    (* ray[3] *)
}.

(** A circle is the tuple [(x, y, r)]. *)
Record circle : Type := Circle {
  circle_x : R;   (* c[0] *)
  circle_y : R;   (* c[1] *)
  circle_r : R    (* c[2] *)
}.

(** ** get_tangents *)

Definition get_tangents (x1 y1 r1 x2 y2 r2 : R) : result (list segment) :=
  let d_sq := (x1 - x2) ^ 2 + (y1 - y2) ^ 2 in
  if Py.le d_sq ((r1 - r2) ^ 2) then Ok []
  else
    d <- Py.math_sqrt d_sq ;;
    vx <- Py.truediv (x2 - x1) d ;;
    vy <- Py.truediv (y2 - y1) d ;;
    for_each [1; -1] [] (fun res sign1 =>
      c <- Py.truediv (r1 - sign1 * r2) d ;;
      if Py.gt (c * c) 1 then Ok res
      else
        h <- Py.math_sqrt (Py.max 0 (1 - c * c)) ;;
        for_each [1; -1] res (fun res sign2 =>
          let nx := vx * c - sign2 * h * vy in
          let ny := vy * c + sign2 * h * vx in
          Ok (res ++ [Segment (x1 + r1 * nx) (y1 + r1 * ny)
                              (x2 + sign1 * r2 * nx) (y2 + sign1 * r2 * ny)]))).

(** ** circle_line_intersection *)

(** [(not lb or t >= 0) and (not ub or t <= 1)] *)
Definition in_bounds (lb ub : bool) (t : R) : bool :=
  (negb lb || Py.ge t 0) && (negb ub || Py.le t 1).

Definition circle_line_intersection
  (cx cy cr x1 y1 x2 y2 : R) (lb ub : bool) : result (list point) :=
  let dx := x2 - x1 in
  let dy := y2 - y1 in
  let A := dx ^ 2 + dy ^ 2 in
  let B := 2 * (dx * (x1 - cx) + dy * (y1 - cy)) in
  let C := (x1 - cx) ^ 2 + (y1 - cy) ^ 2 - cr ^ 2 in
  let det := B ^ 2 - 4 * A * C in
  if Py.lt det 0 then Ok []
  else if Req_dec_T det 0 then
    t <- Py.truediv (- B) (2 * A) ;;
    if in_bounds lb ub t then Ok [(x1 + t * dx, y1 + t * dy)] else Ok []
  else
    for_each [-1; 1] [] (fun intersections sign =>
      s <- Py.math_sqrt det ;;
      t <- Py.truediv (- B + sign * s) (2 * A) ;;
      if in_bounds lb ub t
      then Ok (intersections ++ [(x1 + t * dx, y1 + t * dy)])
      else Ok intersections).

(** ** get_first_intersection *)

(** The body of [for i in intersections]: the first point is taken
    unconditionally (a pair [(i, c)] is never falsy), a later one only when
    its x-distance from the ray's origin is strictly smaller. *)
Definition closer (ray : segment) (c : circle)
  (first_intersection : option (point * circle)) (i : point)
  : option (point * circle) :=
  match first_intersection with
  | None => Some (i, c)
  | Some (p, _) =>
      if Py.lt (Rabs (fst i - seg_x1 ray)) (Rabs (fst p - seg_x1 ray))
      then Some (i, c)
      else first_intersection
  end.

Definition get_first_intersection (circles : list circle) (ray : segment)
  : result (option (point * circle)) :=
  for_each circles None (fun first_intersection c =>
    intersections <-
      circle_line_intersection (circle_x c) (circle_y c) (circle_r c)
        (seg_x1 ray) (seg_y1 ray) (seg_x2 ray) (seg_y2 ray) true false ;;
    match intersections with
    | [] => Ok first_intersection
    | _ => Ok (fold_left (closer ray c) intersections first_intersection)
    end).

(** ** is_visible *)

(** [for t in tangents], which returns from the function at the first hit. *)
Fixpoint is_visible_loop (obstacles : list circle) (tangents : list segment)
  : result bool :=
  match tangents with
  | [] => Ok true
  | t :: rest =>
      hit <- get_first_intersection obstacles t ;;
      match hit with
      | Some _ => Ok false
      | None => is_visible_loop obstacles rest
      end
  end.

Definition is_visible (target source : circle) (obstacles : list circle)
  : result bool :=
  tangents <- get_tangents (circle_x source) (circle_y source) 0
                           (circle_x target) (circle_y target) 0 ;;
  is_visible_loop obstacles tangents.

(** ** main: the event loop's state and one frame's geometry *)

(** What [main] computes between the calls to pygame and shapely, which
    are left out: how the events of a frame change [running] and [radius],
    and the tangents, the corners handed to [Polygon] and the hits drawn in
    a frame.  Mouse position and radius are Python [int]s. *)

(** An event, as far as [main] looks at it: its [type], and [button] for a
    mouse button press. *)
Inductive event : Type :=
| QUIT
| MOUSEBUTTONDOWN (button : Z)
| OtherEvent.

Record loop_state : Type := LoopState {
  running : bool;
  radius : Z
}.

(** The body of [for event in pygame.event.get()]. *)
Definition main_handle_event (st : loop_state) (e : event) : loop_state :=
  let st :=
    match e with
    | QUIT => LoopState false (radius st)
    | _ => st
    end in
  match e with
  | MOUSEBUTTONDOWN button =>
      let st :=
        if (button =? 4)%Z && (radius st <? 200)%Z
        then LoopState (running st) (radius st + 10)
        else st in
      if (button =? 5)%Z && (radius st >? 10)%Z
      then LoopState (running st) (radius st - 10)
      else st
  | _ => st
  end.

(** The events of one frame, in order. *)
Definition main_events (st : loop_state) (events : list event) : loop_state :=
  fold_left main_handle_event events st.

(** [while running:], each iteration handling the events of the next
    frame, from the state [st]. *)
Fixpoint main_loop (st : loop_state) (frames : list (list event))
  : loop_state :=
  if running st then
    match frames with
    | [] => st
    | events :: rest => main_loop (main_events st events) rest
    end
  else st.

(** [running = True; radius = 100] before the loop. *)
Definition main_initial : loop_state := LoopState true 100.

(** The state when the loop has ended or the frames given are used up. *)
Definition main_frames (frames : list (list event)) : loop_state :=
  main_loop main_initial frames.

(** What can end a frame early: indexing [tangents] past its end, or an
    exception of the geometry. *)
Inductive main_exn : Type :=
| IndexError
| Numeric (e : exn).

Inductive outcome (A : Type) : Type :=
| Done (a : A)
| Crash (e : main_exn).

Arguments Done {A} a.
Arguments Crash {A} e.

(** [get_tangents(position[0], position[1], radius, 200, 200, 100)] *)
Definition main_tangents (position : Z * Z) (radius : Z)
  : result (list segment) :=
  get_tangents (IZR (fst position)) (IZR (snd position)) (IZR radius)
    200 200 100.

(** The four corners given to [Polygon]: [tangents[0]] and [tangents[1]]
    are indexed without a test of the list's length. *)
Definition main_polygon (tangents : list segment) : outcome (list point) :=
  match nth_error tangents 0, nth_error tangents 1 with
  | Some t0, Some t1 =>
      Done [(seg_x1 t0, seg_y1 t0); (seg_x1 t1, seg_y1 t1);
            (seg_x2 t1, seg_y2 t1); (seg_x2 t0, seg_y2 t0)]
  | _, _ => Crash IndexError
  end.

(** [for t in tangents: hit = get_first_intersection(circles, t)], with
    the hits in the order they are drawn. *)
Definition main_hits (circles : list circle) (tangents : list segment)
  : result (list (option (point * circle))) :=
  for_each tangents [] (fun hits t =>
    hit <- get_first_intersection circles t ;;
    Ok (hits ++ [hit])).

(** One frame: tangents, polygon, then the hits. *)
Definition main_frame (circles : list circle) (position : Z * Z)
  (radius : Z)
  : outcome (list point * list (option (point * circle))) :=
  match main_tangents position radius with
  | Raise e => Crash (Numeric e)
  | Ok tangents =>
      match main_polygon tangents with
      | Crash e => Crash e
      | Done corners =>
          match main_hits circles tangents with
          | Raise e => Crash (Numeric e)
          | Ok hits => Done (corners, hits)
          end
      end
  end.

(** The squared distance of the mouse position from (200, 200). *)
Definition mouse_d_sq (position : Z * Z) : Z :=
  ((fst position - 200) ^ 2 + (snd position - 200) ^ 2)%Z.

(** ** Closed forms of the tangent construction *)

(** The quantities of [get_tangents] once [d_sq > (r1 - r2) ** 2] holds,
    written without the error monad. *)
Section TangentTerms.

Variables x1 y1 r1 x2 y2 r2 : R.

Definition d_sq : R := (x1 - x2) ^ 2 + (y1 - y2) ^ 2.
Definition dist : R := sqrt d_sq.
Definition dir_x : R := (x2 - x1) / dist.
Definition dir_y : R := (y2 - y1) / dist.
Definition cosine (sign1 : R) : R := (r1 - sign1 * r2) / dist.
Definition sine (sign1 : R) : R :=
  sqrt (Py.max 0 (1 - cosine sign1 * cosine sign1)).

Definition tangent (sign1 sign2 : R) : segment :=
  let nx := dir_x * cosine sign1 - sign2 * sine sign1 * dir_y in
  let ny := dir_y * cosine sign1 + sign2 * sine sign1 * dir_x in
  Segment (x1 + r1 * nx) (y1 + r1 * ny)
          (x2 + sign1 * r2 * nx) (y2 + sign1 * r2 * ny).

(** What one iteration of [for sign1 in [1, -1]] appends. *)
Definition family (sign1 : R) : list segment :=
  if Py.gt (cosine sign1 * cosine sign1) 1 then []
  else [tangent sign1 1; tangent sign1 (-1)].

End TangentTerms.

(** Euclidean distance between two points. *)
Definition distance (ax ay bx by_ : R) : R :=
  sqrt ((ax - bx) ^ 2 + (ay - by_) ^ 2).

(** Both endpoints of a segment at the radius' distance from the centres. *)
Definition touches (x1 y1 r1 x2 y2 r2 : R) (s : segment) : Prop :=
  distance (seg_x1 s) (seg_y1 s) x1 y1 = r1
  /\ distance (seg_x2 s) (seg_y2 s) x2 y2 = r2.

(** ** Closed forms of the intersection *)

(** The quadratic [A t^2 + B t + C = 0] of [circle_line_intersection] and
    its roots, written without the error monad. *)
Section QuadraticTerms.

Variables cx cy cr x1 y1 x2 y2 : R.

Definition coef_A : R := (x2 - x1) ^ 2 + (y2 - y1) ^ 2.
Definition coef_B : R :=
  2 * ((x2 - x1) * (x1 - cx) + (y2 - y1) * (y1 - cy)).
Definition coef_C : R := (x1 - cx) ^ 2 + (y1 - cy) ^ 2 - cr ^ 2.
Definition det : R := coef_B ^ 2 - 4 * coef_A * coef_C.

(** [(-B + sign * math.sqrt(det)) / (2 * A)] *)
Definition root (sign : R) : R :=
  (- coef_B + sign * sqrt det) / (2 * coef_A).

(** The parameters the three branches compute, before the bounds filter. *)
Definition roots : list R :=
  if Py.lt det 0 then []
  else if Req_dec_T det 0 then [- coef_B / (2 * coef_A)]
  else [root (-1); root 1].

(** The point of the line at parameter [t]. *)
Definition at_param (t : R) : point :=
  (x1 + t * (x2 - x1), y1 + t * (y2 - y1)).

(** [p] lies on the circle. *)
Definition on_circle (p : point) : Prop :=
  (fst p - cx) ^ 2 + (snd p - cy) ^ 2 = cr ^ 2.

End QuadraticTerms.

(** The exception class the specification names for a degenerate segment. *)
Definition InvalidGeometry : exn := UserError "InvalidGeometry".

(** ** Closed forms of the occlusion query *)

(** The points [circle_line_intersection] returns for circle [c] on a ray
    with distinct endpoints ([lb] true, [ub] false). *)
Definition hits (ray : segment) (c : circle) : list point :=
  map (at_param (seg_x1 ray) (seg_y1 ray) (seg_x2 ray) (seg_y2 ray))
    (filter (in_bounds true false)
       (roots (circle_x c) (circle_y c) (circle_r c)
          (seg_x1 ray) (seg_y1 ray) (seg_x2 ray) (seg_y2 ray))).

(** All pairs [(i, c)] in the order the two nested loops visit them. *)
Definition candidates (ray : segment) (circles : list circle)
  : list (point * circle) :=
  flat_map (fun c => map (fun i => (i, c)) (hits ray c)) circles.

(** The ranking key [abs(i[0] - ray[0])]. *)
Definition x_distance (ray : segment) (p : point) : R :=
  Rabs (fst p - seg_x1 ray).

(** [p] is a point of circle [c] on the half-line from the ray's first
    endpoint through its second: parameter [t >= 0], no upper limit. *)
Definition meets (ray : segment) (c : circle) (p : point) : Prop :=
  exists t,
    0 <= t
    /\ p = at_param (seg_x1 ray) (seg_y1 ray) (seg_x2 ray) (seg_y2 ray) t
    /\ on_circle (circle_x c) (circle_y c) (circle_r c) p.

(** A segment with distinct endpoints. *)
Definition proper (ray : segment) : Prop :=
  (seg_x1 ray, seg_y1 ray) <> (seg_x2 ray, seg_y2 ray).

(** [p] lies in the closed disc of circle [c]. *)
Definition in_disc (c : circle) (p : point) : Prop :=
  (fst p - circle_x c) ^ 2 + (snd p - circle_y c) ^ 2 <= circle_r c ^ 2.

(** The obstacle is centred on the line from [source] to [target] past the
    target, and all of it is past the target: the line is inside the
    obstacle's disc only at parameters [t > 1]. *)
Definition beyond_target (source target obstacle : circle) : Prop :=
  (exists t,
      1 < t
      /\ at_param (circle_x source) (circle_y source)
           (circle_x target) (circle_y target) t
         = (circle_x obstacle, circle_y obstacle))
  /\ (forall t,
        in_disc obstacle
          (at_param (circle_x source) (circle_y source)
             (circle_x target) (circle_y target) t) ->
        1 < t).

(** ** Geometry of a segment *)

(** Squared length of a segment. *)
Definition sq_length (s : segment) : R :=
  (seg_x2 s - seg_x1 s) ^ 2 + (seg_y2 s - seg_y1 s) ^ 2.

(** The segment is perpendicular to the radius from [(cx, cy)] to
    [(px, py)]. *)
Definition perpendicular (cx cy px py : R) (s : segment) : Prop :=
  (seg_x2 s - seg_x1 s) * (px - cx) + (seg_y2 s - seg_y1 s) * (py - cy) = 0.

(** Tangent to both circles: perpendicular to the radius through its first
    endpoint on the first circle and through its second endpoint on the
    second. *)
Definition bitangent (x1 y1 x2 y2 : R) (s : segment) : Prop :=
  perpendicular x1 y1 (seg_x1 s) (seg_y1 s) s
  /\ perpendicular x2 y2 (seg_x2 s) (seg_y2 s) s.

(** The point of the segment's line at parameter [t]. *)
Definition point_at (s : segment) (t : R) : point :=
  at_param (seg_x1 s) (seg_y1 s) (seg_x2 s) (seg_y2 s) t.

(** Squared distance of a point from [(cx, cy)]. *)
Definition sq_distance (cx cy : R) (p : point) : R :=
  (fst p - cx) ^ 2 + (snd p - cy) ^ 2.

(** The same segment run from its second endpoint to its first. *)
Definition reversed (s : segment) : segment :=
  Segment (seg_x2 s) (seg_y2 s) (seg_x1 s) (seg_y1 s).

(** The list with its first two elements exchanged. *)
Definition exchange_first_two {X : Type} (l : list X) : list X :=
  match l with
  | a :: b :: rest => b :: a :: rest
  | _ => l
  end.

(** The segment from the centre of [source] to the centre of [target], the
    only thing [is_visible] passes on of the two circles. *)
Definition line_of_sight (target source : circle) : segment :=
  Segment (circle_x source) (circle_y source)
    (circle_x target) (circle_y target).

(** Some obstacle's closed disc contains a point of the half-line from the
    centre of [source] through the centre of [target]. *)
Definition blocked (target source : circle) (obstacles : list circle)
  : Prop :=
  exists c t,
    In c obstacles /\ 0 <= t
    /\ in_disc c (point_at (line_of_sight target source) t).

(** ** genetic_evolution/evolution.py: SingleGene and LinkedGene *)

(** The two gene classes of [evolution.py].  A numpy array of floats is a
    list of reals; the numpy functions used are written out elementwise as
    numpy documents them.  A random draw is an argument of the method that
    makes it. *)
Module Evolution.

Inductive py_exn : Type :=
| AssertionError
| TypeError
| IndexError
| ValueError.

Inductive res (A : Type) : Type :=
| Ret (a : A)
| Throw (e : py_exn).

Arguments Ret {A} a.
Arguments Throw {A} e.

(** [numpy.clip(a, a_min, a_max)]: [minimum(a_max, maximum(a, a_min))]. *)
Definition np_clip (a : list R) (a_min a_max : R) : list R :=
  map (fun v => Rmin a_max (Rmax v a_min)) a.

(** [numpy.mod(a, 1)]: the remainder of the floor division, in [0, 1). *)
Definition np_mod1 (a : list R) : list R :=
  map frac_part a.

(** [numpy.where(a > 1 / 2, 1 - a, a)] *)
Definition np_where_bounce (a : list R) : list R :=
  map (fun v => if Rgt_dec v (1 / 2) then 1 - v else v) a.

(** [numpy.sum(a)] *)
Definition np_sum (a : list R) : R :=
  fold_right Rplus 0 a.


(** [SingleGene.Mode] *)
Inductive Mode : Type :=
| CLIP
| WRAP
| BOUNCE.

Record SingleGene : Type := Build_SingleGene {
  name : string;
  dimension : nat;
  min_value : R;
  max_value : R;
  mode : Mode;
  value : list R
}.

(** [self.value = v] *)
Definition with_value (g : SingleGene) (v : list R) : SingleGene :=
  Build_SingleGene (name g) (dimension g) (min_value g) (max_value g)
    (mode g) v.

(** [SingleGene.__init__]: [value = numpy.zeros(dimension)]. *)
Definition init_single (name : string) (min_value max_value : R)
  (dimension : nat) (mode : Mode) : SingleGene :=
  Build_SingleGene name dimension min_value max_value mode
    (repeat 0 dimension).

(** [SingleGene.clamp] *)
Definition clamp (g : SingleGene) : SingleGene :=
  match mode g with
  | CLIP => with_value g (np_clip (value g) 0 1)
  | WRAP => with_value g (np_mod1 (value g))
  | BOUNCE => with_value g (np_where_bounce (np_mod1 (value g)))
  end.

(** What a caller passes as [value]: a number, which has no [len], or a
    sequence of numbers. *)
Inductive value_arg : Type :=
| Scalar (x : R)
| Sequence (l : list R).

(** [SingleGene.set_value]: [len(value)] is evaluated inside the
    [assert]. *)
Definition set_value (g : SingleGene) (v : value_arg) : res SingleGene :=
  match v with
  | Scalar _ => Throw TypeError
  | Sequence l =>
      if Nat.eqb (List.length l) (dimension g)
      then Ret (clamp (with_value g l))
      else Throw AssertionError
  end.


(** [LinkedGene.MINIMUM_WEIGHT], [LinkedGene.MAXIMUM_WEIGHT] *)
Definition MINIMUM_WEIGHT : R := 1 / 1000.
Definition MAXIMUM_WEIGHT : R := 999 / 1000.

Record LinkedGene : Type := Build_LinkedGene {
  strength : R;
  genes : list SingleGene;
  weights : list R
}.

(** [LinkedGene.normalize].  numpy's division of an array by a number does
    not raise. *)
Definition normalize (lg : LinkedGene) : LinkedGene :=
  let clipped := np_clip (weights lg) MINIMUM_WEIGHT MAXIMUM_WEIGHT in
  let total := np_sum clipped in
  Build_LinkedGene (strength lg) (genes lg)
    (map (fun w => w / total) clipped).

Definition is_clip (g : SingleGene) : bool :=
  match mode g with CLIP => true | _ => false end.

(** [LinkedGene.__init__], on the tuple of its arguments. *)
Definition init_linked (genes : list SingleGene) : res LinkedGene :=
  if forallb is_clip genes
  then Ret (normalize (Build_LinkedGene 1 genes
                         (repeat 1 (List.length genes))))
  else Throw AssertionError.

(** The loop of [LinkedGene.update_genes] from index [i]: [self.weights[i]]
    is read, then [gene.set_value] is called with a number. *)
Fixpoint update_from (ws : list R) (i : nat) (gs : list SingleGene)
  : res (list SingleGene) :=
  match gs with
  | [] => Ret []
  | g :: rest =>
      match nth_error ws i with
      | None => Throw IndexError
      | Some w =>
          match set_value g
                  (Scalar (w * (max_value g - min_value g) + min_value g))
          with
          | Throw e => Throw e
          | Ret g' =>
              match update_from ws (S i) rest with
              | Throw e => Throw e
              | Ret rest' => Ret (g' :: rest')
              end
          end
      end
  end.

(** [LinkedGene.update_genes] *)
Definition update_genes (lg : LinkedGene) : res LinkedGene :=
  match update_from (weights lg) 0 (genes lg) with
  | Throw e => Throw e
  | Ret gs => Ret (Build_LinkedGene (strength lg) gs (weights lg))
  end.

(** [LinkedGene.mutate(variance)].  The loop [for weight in self.weights:
    weight += numpy.random.normal(0, variance)] rebinds its own variable and
    leaves [self.weights] as it is; each draw is refused for a negative
    [variance]. *)
Definition mutate_linked (lg : LinkedGene) (variance : R) : res LinkedGene :=
  match weights lg with
  | _ :: _ =>
      if Rlt_dec variance 0 then Throw ValueError
      else update_genes (normalize lg)
  | [] => update_genes (normalize lg)
  end.

(** Every component in [0, 1]. *)
Definition in_unit (v : list R) : Prop :=
  Forall (fun x => 0 <= x <= 1) v.

End Evolution.

(** ** Basic facts about the primitives *)

Lemma truediv_ok (a b : R) : b <> 0 -> Py.truediv a b = Ok (a / b).
Proof.
  intros Hb. unfold Py.truediv.
  destruct (Req_dec_T b 0) as [E | _]; [contradiction | reflexivity].
Qed.

Lemma truediv_zero (a : R) : Py.truediv a 0 = Raise ZeroDivisionError.
Proof.
  unfold Py.truediv.
  destruct (Req_dec_T 0 0) as [_ | N]; [reflexivity | now elim N].
Qed.

Lemma math_sqrt_ok (x : R) : 0 <= x -> Py.math_sqrt x = Ok (sqrt x).
Proof.
  intros Hx. unfold Py.math_sqrt.
  destruct (Rlt_dec x 0) as [L | _]; [lra | reflexivity].
Qed.

Lemma lt_true (a b : R) : Py.lt a b = true <-> a < b.
Proof. unfold Py.lt. destruct (Rlt_dec a b); split; auto; discriminate. Qed.

Lemma lt_false (a b : R) : Py.lt a b = false <-> b <= a.
Proof.
  unfold Py.lt. destruct (Rlt_dec a b); split; auto; try discriminate; lra.
Qed.

Lemma le_true (a b : R) : Py.le a b = true <-> a <= b.
Proof. unfold Py.le. destruct (Rle_dec a b); split; auto; discriminate. Qed.

Lemma le_false (a b : R) : Py.le a b = false <-> b < a.
Proof.
  unfold Py.le. destruct (Rle_dec a b); split; auto; try discriminate; lra.
Qed.

Lemma gt_true (a b : R) : Py.gt a b = true <-> b < a.
Proof. unfold Py.gt. destruct (Rgt_dec a b); split; auto; discriminate. Qed.

Lemma gt_false (a b : R) : Py.gt a b = false <-> a <= b.
Proof.
  unfold Py.gt. destruct (Rgt_dec a b); split; auto; try discriminate; lra.
Qed.

Lemma ge_true (a b : R) : Py.ge a b = true <-> b <= a.
Proof.
  unfold Py.ge. destruct (Rge_dec a b); split; auto; try discriminate; lra.
Qed.

Lemma ge_false (a b : R) : Py.ge a b = false <-> a < b.
Proof.
  unfold Py.ge. destruct (Rge_dec a b); split; auto; try discriminate; lra.
Qed.

Lemma max_zero_nonneg (x : R) : 0 <= Py.max 0 x.
Proof. unfold Py.max. destruct (Rgt_dec x 0); lra. Qed.

Lemma max_zero_id (x : R) : 0 <= x -> Py.max 0 x = x.
Proof. intros Hx. unfold Py.max. destruct (Rgt_dec x 0); lra. Qed.

Lemma max_is_Rmax (a b : R) : Py.max a b = Rmax a b.
Proof.
  unfold Py.max, Rmax.
  destruct (Rgt_dec b a), (Rle_dec a b); lra.
Qed.

Lemma sqr_pos (x : R) : x <> 0 -> 0 < x ^ 2.
Proof.
  intros Hx. pose proof (pow_nonzero x 2 Hx). pose proof (pow2_ge_0 x). lra.
Qed.

(** ** get_tangents in closed form *)

Section TangentFacts.

Variables x1 y1 r1 x2 y2 r2 : R.

Local Abbreviation dsq := (d_sq x1 y1 x2 y2).
Local Abbreviation d := (dist x1 y1 x2 y2).

Lemma d_sq_nonneg : 0 <= dsq.
Proof.
  unfold d_sq.
  pose proof (pow2_ge_0 (x1 - x2)). pose proof (pow2_ge_0 (y1 - y2)). lra.
Qed.

Hypothesis apart : (r1 - r2) ^ 2 < dsq.

Lemma d_sq_pos : 0 < dsq.
Proof. pose proof (pow2_ge_0 (r1 - r2)). lra. Qed.

Lemma dist_pos : 0 < d.
Proof. apply sqrt_lt_R0, d_sq_pos. Qed.

Lemma dist_sqr : d * d = dsq.
Proof. apply sqrt_sqrt, d_sq_nonneg. Qed.

Lemma dir_unit :
  dir_x x1 y1 x2 y2 * dir_x x1 y1 x2 y2
  + dir_y x1 y1 x2 y2 * dir_y x1 y1 x2 y2 = 1.
Proof.
  pose proof dist_pos as Hd. pose proof dist_sqr as Hs.
  unfold dir_x, dir_y.
  assert (E : (x2 - x1) * (x2 - x1) + (y2 - y1) * (y2 - y1) = d * d).
  { rewrite Hs. unfold d_sq. ring. }
  field_simplify_eq; [ | lra]. nra.
Qed.

(** The family of [sign1 = 1] is never skipped. *)
Lemma cosine_plus_small :
  cosine x1 y1 r1 x2 y2 r2 1 * cosine x1 y1 r1 x2 y2 r2 1 < 1.
Proof.
  pose proof dist_pos as Hd. pose proof dist_sqr as Hs.
  unfold cosine.
  replace ((r1 - 1 * r2) / d * ((r1 - 1 * r2) / d))
    with ((r1 - r2) ^ 2 / (d * d)) by (field; lra).
  apply Rmult_lt_reg_r with (d * d); [nra | ].
  unfold Rdiv. rewrite Rmult_assoc, Rinv_l by nra. lra.
Qed.

Lemma get_tangents_apart :
  get_tangents x1 y1 r1 x2 y2 r2
  = Ok (family x1 y1 r1 x2 y2 r2 1 ++ family x1 y1 r1 x2 y2 r2 (-1)).
Proof.
  pose proof dist_pos as Hd.
  unfold get_tangents.
  change ((x1 - x2) ^ 2 + (y1 - y2) ^ 2) with dsq.
  destruct (Py.le dsq ((r1 - r2) ^ 2)) eqn:E.
  { apply le_true in E. lra. }
  rewrite math_sqrt_ok by apply d_sq_nonneg.
  cbn [bind]. change (sqrt dsq) with d.
  rewrite !truediv_ok by lra. cbn [bind for_each].
  rewrite !truediv_ok by lra. cbn [bind].
  unfold family.
  change ((r1 - 1 * r2) / d) with (cosine x1 y1 r1 x2 y2 r2 1).
  change ((r1 - -1 * r2) / d) with (cosine x1 y1 r1 x2 y2 r2 (-1)).
  destruct (Py.gt (cosine x1 y1 r1 x2 y2 r2 1 * _) 1) eqn:E1;
    destruct (Py.gt (cosine x1 y1 r1 x2 y2 r2 (-1) * _) 1) eqn:E2;
    repeat (rewrite math_sqrt_ok by apply max_zero_nonneg; cbn [bind for_each]);
    cbn [bind for_each]; try rewrite E2;
    repeat (rewrite math_sqrt_ok by apply max_zero_nonneg; cbn [bind for_each]);
    reflexivity.
Qed.

End TangentFacts.

Lemma family_length (x1 y1 r1 x2 y2 r2 sign1 : R) :
  length (family x1 y1 r1 x2 y2 r2 sign1) = 0%nat
  \/ length (family x1 y1 r1 x2 y2 r2 sign1) = 2%nat.
Proof.
  unfold family.
  destruct (Py.gt _ 1); [left | right]; reflexivity.
Qed.

Lemma family_feasible (x1 y1 r1 x2 y2 r2 sign1 : R) :
  cosine x1 y1 r1 x2 y2 r2 sign1 * cosine x1 y1 r1 x2 y2 r2 sign1 <= 1 ->
  family x1 y1 r1 x2 y2 r2 sign1
  = [tangent x1 y1 r1 x2 y2 r2 sign1 1; tangent x1 y1 r1 x2 y2 r2 sign1 (-1)].
Proof.
  intros Hc. unfold family.
  destruct (Py.gt _ 1) eqn:E; [ | reflexivity].
  apply gt_true in E. lra.
Qed.

Lemma abs_le_1_sqr (c : R) : Rabs c <= 1 -> c * c <= 1.
Proof.
  intros H. unfold Rabs in H. destruct (Rcase_abs c); nra.
Qed.

Lemma sqrt_of_square (a b : R) : 0 <= b -> a = b * b -> sqrt a = b.
Proof. intros Hb ->. now apply sqrt_square. Qed.

Lemma dist_eq (x1 y1 x2 y2 d : R) :
  0 <= d -> d_sq x1 y1 x2 y2 = d * d -> dist x1 y1 x2 y2 = d.
Proof. intros Hd E. unfold dist. now apply sqrt_of_square. Qed.

(** The normal [(nx, ny)] of a feasible family is a unit vector, so the
    tangent's endpoints lie on the two circles. *)
Section TangentOnCircles.

Variables x1 y1 r1 x2 y2 r2 : R.
Hypothesis apart : (r1 - r2) ^ 2 < d_sq x1 y1 x2 y2.

Variables sign1 sign2 : R.
Hypothesis sign1_unit : sign1 * sign1 = 1.
Hypothesis sign2_unit : sign2 * sign2 = 1.
Hypothesis feasible :
  cosine x1 y1 r1 x2 y2 r2 sign1 * cosine x1 y1 r1 x2 y2 r2 sign1 <= 1.

Local Abbreviation c := (cosine x1 y1 r1 x2 y2 r2 sign1).
Local Abbreviation h := (sine x1 y1 r1 x2 y2 r2 sign1).
Local Abbreviation vx := (dir_x x1 y1 x2 y2).
Local Abbreviation vy := (dir_y x1 y1 x2 y2).
Local Abbreviation nx := (vx * c - sign2 * h * vy).
Local Abbreviation ny := (vy * c + sign2 * h * vx).

Lemma sine_sqr : h * h = 1 - c * c.
Proof.
  unfold sine.
  rewrite max_zero_id by lra.
  apply sqrt_sqrt. lra.
Qed.

Lemma normal_unit : nx * nx + ny * ny = 1.
Proof.
  pose proof sine_sqr as Hh.
  pose proof (dir_unit x1 y1 r1 x2 y2 r2 apart) as Hv.
  replace ((vx * c - sign2 * h * vy) * (vx * c - sign2 * h * vy)
           + (vy * c + sign2 * h * vx) * (vy * c + sign2 * h * vx))
    with ((c * c + (sign2 * sign2) * (h * h)) * (vx * vx + vy * vy)) by ring.
  rewrite Hv, sign2_unit, Hh. ring.
Qed.

Lemma tangent_first_on_circle :
  0 <= r1 ->
  distance (seg_x1 (tangent x1 y1 r1 x2 y2 r2 sign1 sign2))
           (seg_y1 (tangent x1 y1 r1 x2 y2 r2 sign1 sign2)) x1 y1 = r1.
Proof.
  intros Hr. pose proof normal_unit as Hn.
  unfold distance, tangent. cbn [seg_x1 seg_y1].
  apply sqrt_of_square; [exact Hr | ].
  replace ((x1 + r1 * nx - x1) ^ 2 + (y1 + r1 * ny - y1) ^ 2)
    with (r1 * r1 * (nx * nx + ny * ny)) by ring.
  rewrite Hn. ring.
Qed.

Lemma tangent_second_on_circle :
  0 <= r2 ->
  distance (seg_x2 (tangent x1 y1 r1 x2 y2 r2 sign1 sign2))
           (seg_y2 (tangent x1 y1 r1 x2 y2 r2 sign1 sign2)) x2 y2 = r2.
Proof.
  intros Hr. pose proof normal_unit as Hn.
  unfold distance, tangent. cbn [seg_x2 seg_y2].
  apply sqrt_of_square; [exact Hr | ].
  replace ((x2 + sign1 * r2 * nx - x2) ^ 2 + (y2 + sign1 * r2 * ny - y2) ^ 2)
    with ((sign1 * sign1) * (r2 * r2) * (nx * nx + ny * ny)) by ring.
  rewrite Hn, sign1_unit. ring.
Qed.

End TangentOnCircles.

Lemma get_tangents_nested_here (x1 y1 r1 x2 y2 r2 : R) :
  d_sq x1 y1 x2 y2 <= (r1 - r2) ^ 2 ->
  get_tangents x1 y1 r1 x2 y2 r2 = Ok [].
Proof.
  intros H. apply le_true in H.
  unfold get_tangents.
  change ((x1 - x2) ^ 2 + (y1 - y2) ^ 2) with (d_sq x1 y1 x2 y2).
  now rewrite H.
Qed.

(** ** Results on get_tangents *)

(** C5: when the squared distance of the centres is at most
    [(r1 - r2) ** 2] (one circle inside the other, or concentric circles),
    [get_tangents] returns the empty list, as a value and not as an
    exception. *)
Theorem get_tangents_nested_empty (x1 y1 r1 x2 y2 r2 : R) :
  d_sq x1 y1 x2 y2 <= (r1 - r2) ^ 2 ->
  get_tangents x1 y1 r1 x2 y2 r2 = Ok [].
Proof.
  intros H. unfold get_tangents.
  change ((x1 - x2) ^ 2 + (y1 - y2) ^ 2) with (d_sq x1 y1 x2 y2).
  destruct (Py.le _ _) eqn:E; [reflexivity | ].
  apply le_false in E. lra.
Qed.

(** A circle of radius 2 inside a circle of radius 5, centres 1 apart. *)
Lemma get_tangents_nested_empty_witness :
  d_sq 0 0 1 0 <= (5 - 2) ^ 2 /\ get_tangents 0 0 5 1 0 2 = Ok [].
Proof.
  assert (H : d_sq 0 0 1 0 <= (5 - 2) ^ 2) by (unfold d_sq; lra).
  split; [exact H | exact (get_tangents_nested_empty 0 0 5 1 0 2 H)].
Defined.

(** With both families feasible the result is the four tangents in the
    order (+,+), (+,-), (-,+), (-,-) of [(sign1, sign2)]. *)
Lemma get_tangents_four (x1 y1 r1 x2 y2 r2 : R) :
  (r1 - r2) ^ 2 < d_sq x1 y1 x2 y2 ->
  cosine x1 y1 r1 x2 y2 r2 (-1) * cosine x1 y1 r1 x2 y2 r2 (-1) <= 1 ->
  get_tangents x1 y1 r1 x2 y2 r2
  = Ok [tangent x1 y1 r1 x2 y2 r2 1 1; tangent x1 y1 r1 x2 y2 r2 1 (-1);
        tangent x1 y1 r1 x2 y2 r2 (-1) 1; tangent x1 y1 r1 x2 y2 r2 (-1) (-1)].
Proof.
  intros Hd Hc.
  rewrite get_tangents_apart by exact Hd.
  rewrite !family_feasible; [reflexivity | exact Hc | ].
  apply Rlt_le, cosine_plus_small, Hd.
Qed.

(** C4: for circles (radii non-negative) with [d_sq > (r1 - r2) ** 2] and
    [|c| <= 1] in both [sign1] branches, [get_tangents] returns exactly four
    segments; the first endpoint of each is at distance [r1] from the first
    centre and the second endpoint at distance [r2] from the second centre,
    exactly. *)
Theorem get_tangents_four_touching (x1 y1 r1 x2 y2 r2 : R) :
  0 <= r1 -> 0 <= r2 ->
  (r1 - r2) ^ 2 < d_sq x1 y1 x2 y2 ->
  Rabs (cosine x1 y1 r1 x2 y2 r2 1) <= 1 ->
  Rabs (cosine x1 y1 r1 x2 y2 r2 (-1)) <= 1 ->
  exists res,
    get_tangents x1 y1 r1 x2 y2 r2 = Ok res
    /\ List.length res = 4%nat
    /\ Forall (touches x1 y1 r1 x2 y2 r2) res.
Proof.
  intros Hr1 Hr2 Hd Hc1 Hc2.
  apply abs_le_1_sqr in Hc1, Hc2.
  eexists. split; [apply get_tangents_four; assumption | ].
  split; [reflexivity | ].
  repeat constructor;
    solve [ apply tangent_first_on_circle; (assumption || lra)
          | apply tangent_second_on_circle; (assumption || lra) ].
Qed.

(** Two unit circles with centres 5 apart. *)
Lemma get_tangents_four_touching_witness :
  exists res,
    get_tangents 0 0 1 5 0 1 = Ok res
    /\ List.length res = 4%nat
    /\ Forall (touches 0 0 1 5 0 1) res.
Proof.
  assert (D : dist 0 0 5 0 = 5).
  { apply dist_eq; [lra | unfold d_sq; ring]. }
  apply (get_tangents_four_touching 0 0 1 5 0 1).
  - lra.
  - lra.
  - unfold d_sq. lra.
  - unfold cosine. rewrite D.
    replace ((1 - 1 * 1) / 5) with 0 by lra. rewrite Rabs_R0. lra.
  - unfold cosine. rewrite D.
    replace ((1 - -1 * 1) / 5) with (2 / 5) by lra.
    rewrite Rabs_pos_eq; lra.
Defined.

(** Two radius-0 circles at distinct points are always apart. *)
Lemma points_apart (x1 y1 x2 y2 : R) :
  (x1, y1) <> (x2, y2) -> (0 - 0) ^ 2 < d_sq x1 y1 x2 y2.
Proof.
  intros Hne. unfold d_sq.
  pose proof (pow2_ge_0 (x1 - x2)) as Hx.
  pose proof (pow2_ge_0 (y1 - y2)) as Hy.
  destruct (Req_dec_T x1 x2) as [Ex | Nx].
  - destruct (Req_dec_T y1 y2) as [Ey | Ny].
    + subst. now elim Hne.
    + assert (0 < (y1 - y2) ^ 2) by (apply sqr_pos; lra). lra.
  - assert (0 < (x1 - x2) ^ 2) by (apply sqr_pos; lra). lra.
Qed.

Lemma cosine_points (x1 y1 x2 y2 sign1 : R) :
  cosine x1 y1 0 x2 y2 0 sign1 = 0.
Proof. unfold cosine, Rdiv. ring. Qed.

Lemma sine_points (x1 y1 x2 y2 sign1 : R) :
  sine x1 y1 0 x2 y2 0 sign1 = 1.
Proof.
  unfold sine. rewrite cosine_points.
  rewrite max_zero_id by lra.
  replace (1 - 0 * 0) with 1 by ring. apply sqrt_1.
Qed.

Lemma tangent_points (x1 y1 x2 y2 sign1 sign2 : R) :
  tangent x1 y1 0 x2 y2 0 sign1 sign2 = Segment x1 y1 x2 y2.
Proof. unfold tangent. f_equal; ring. Qed.

Lemma get_tangents_of_points (x1 y1 x2 y2 : R) :
  (x1, y1) <> (x2, y2) ->
  get_tangents x1 y1 0 x2 y2 0
  = Ok [Segment x1 y1 x2 y2; Segment x1 y1 x2 y2;
        Segment x1 y1 x2 y2; Segment x1 y1 x2 y2].
Proof.
  intros Hne.
  rewrite get_tangents_four.
  - now rewrite !tangent_points.
  - now apply points_apart.
  - rewrite cosine_points. lra.
Qed.

(** C9: two radius-0 circles at distinct points [pA] and [pB] have four
    tangents, all the same segment from [pA] to [pB]; [c] is 0 and [h] is 1
    whatever [sign1] is. *)
Theorem get_tangents_points_collapse (x1 y1 x2 y2 : R) :
  (x1, y1) <> (x2, y2) ->
  get_tangents x1 y1 0 x2 y2 0
  = Ok [Segment x1 y1 x2 y2; Segment x1 y1 x2 y2;
        Segment x1 y1 x2 y2; Segment x1 y1 x2 y2]
  /\ (forall sign1 : R,
        cosine x1 y1 0 x2 y2 0 sign1 = 0 /\ sine x1 y1 0 x2 y2 0 sign1 = 1)
  /\ (forall sign1 sign2 : R,
        tangent x1 y1 0 x2 y2 0 sign1 sign2 = Segment x1 y1 x2 y2).
Proof.
  intros Hne. split; [now apply get_tangents_of_points | split].
  - intros s. split; [apply cosine_points | apply sine_points].
  - intros s1 s2. apply tangent_points.
Qed.

(** The points (0,0) and (3,4). *)
Lemma get_tangents_points_collapse_witness :
  get_tangents 0 0 0 3 4 0
  = Ok [Segment 0 0 3 4; Segment 0 0 3 4; Segment 0 0 3 4; Segment 0 0 3 4]
  /\ (forall sign1 : R,
        cosine 0 0 0 3 4 0 sign1 = 0 /\ sine 0 0 0 3 4 0 sign1 = 1)
  /\ (forall sign1 sign2 : R,
        tangent 0 0 0 3 4 0 sign1 sign2 = Segment 0 0 3 4).
Proof.
  apply (get_tangents_points_collapse 0 0 3 4).
  intros E. apply (f_equal fst) in E. cbn in E. lra.
Defined.

(** C10: [get_tangents] always returns, with 0, 2 or 4 segments: nothing
    when [d_sq <= (r1 - r2) ** 2]; otherwise what the two [sign1] families
    contribute, each either both of its tangents or none, and the family of
    [sign1 = 1] always both. *)
Theorem get_tangents_count (x1 y1 r1 x2 y2 r2 : R) :
  exists res,
    get_tangents x1 y1 r1 x2 y2 r2 = Ok res
    /\ (List.length res = 0%nat \/ List.length res = 2%nat
        \/ List.length res = 4%nat)
    /\ (d_sq x1 y1 x2 y2 <= (r1 - r2) ^ 2 -> res = [])
    /\ ((r1 - r2) ^ 2 < d_sq x1 y1 x2 y2 ->
        res = family x1 y1 r1 x2 y2 r2 1 ++ family x1 y1 r1 x2 y2 r2 (-1)
        /\ family x1 y1 r1 x2 y2 r2 1
           = [tangent x1 y1 r1 x2 y2 r2 1 1; tangent x1 y1 r1 x2 y2 r2 1 (-1)]
        /\ (family x1 y1 r1 x2 y2 r2 (-1) = []
            \/ family x1 y1 r1 x2 y2 r2 (-1)
               = [tangent x1 y1 r1 x2 y2 r2 (-1) 1;
                  tangent x1 y1 r1 x2 y2 r2 (-1) (-1)])).
Proof.
  destruct (Rle_dec (d_sq x1 y1 x2 y2) ((r1 - r2) ^ 2)) as [Hin | Hout].
  - exists []. split; [now apply get_tangents_nested_here | ].
    split; [now left | ]. split; [reflexivity | ]. intros Hlt. lra.
  - apply Rnot_le_lt in Hout.
    pose proof (cosine_plus_small x1 y1 r1 x2 y2 r2 Hout) as Hc.
    assert (F1 : family x1 y1 r1 x2 y2 r2 1
                 = [tangent x1 y1 r1 x2 y2 r2 1 1;
                    tangent x1 y1 r1 x2 y2 r2 1 (-1)])
      by (apply family_feasible; lra).
    assert (F2 : family x1 y1 r1 x2 y2 r2 (-1) = []
                 \/ family x1 y1 r1 x2 y2 r2 (-1)
                    = [tangent x1 y1 r1 x2 y2 r2 (-1) 1;
                       tangent x1 y1 r1 x2 y2 r2 (-1) (-1)]).
    { unfold family. destruct (Py.gt _ 1); [now left | now right]. }
    eexists. split; [now apply get_tangents_apart | ].
    split; [ | split; [intros Hle; lra | intros _; now repeat split]].
    rewrite F1. destruct F2 as [-> | ->]; cbn; auto.
Qed.

(** ** circle_line_intersection in closed form *)

Lemma sum_sqr_pos (a b c d : R) :
  (a, b) <> (c, d) -> 0 < (c - a) ^ 2 + (d - b) ^ 2.
Proof.
  intros Hne.
  pose proof (pow2_ge_0 (c - a)) as Hx.
  pose proof (pow2_ge_0 (d - b)) as Hy.
  destruct (Req_dec_T a c) as [Ex | Nx].
  - destruct (Req_dec_T b d) as [Ey | Ny].
    + subst. now elim Hne.
    + assert (0 < (d - b) ^ 2) by (apply sqr_pos; lra). lra.
  - assert (0 < (c - a) ^ 2) by (apply sqr_pos; lra). lra.
Qed.

Lemma sum_sqr_zero (a b : R) : a ^ 2 + b ^ 2 = 0 -> a = 0 /\ b = 0.
Proof.
  intros H.
  pose proof (pow2_ge_0 a) as Ha. pose proof (pow2_ge_0 b) as Hb.
  split.
  - destruct (Req_dec_T a 0) as [E | N]; [exact E | ].
    pose proof (sqr_pos a N). lra.
  - destruct (Req_dec_T b 0) as [E | N]; [exact E | ].
    pose proof (sqr_pos b N). lra.
Qed.

Lemma coef_A_pos (x1 y1 x2 y2 : R) :
  (x1, y1) <> (x2, y2) -> 0 < coef_A x1 y1 x2 y2.
Proof. intros H. unfold coef_A. now apply sum_sqr_pos. Qed.

Lemma coef_A_zero (x1 y1 x2 y2 : R) :
  coef_A x1 y1 x2 y2 = 0 <-> (x1, y1) = (x2, y2).
Proof.
  split.
  - intros H. apply sum_sqr_zero in H as [Hx Hy].
    f_equal; lra.
  - intros E. injection E as -> ->. unfold coef_A. ring.
Qed.

Section IntersectionFacts.

Variables cx cy cr x1 y1 x2 y2 : R.

Local Abbreviation A := (coef_A x1 y1 x2 y2).
Local Abbreviation B := (coef_B cx cy x1 y1 x2 y2).
Local Abbreviation C := (coef_C cx cy cr x1 y1).
Local Abbreviation D := (det cx cy cr x1 y1 x2 y2).

(** The function in terms of the named coefficients. *)
Lemma circle_line_intersection_unfold (lb ub : bool) :
  circle_line_intersection cx cy cr x1 y1 x2 y2 lb ub
  = if Py.lt D 0 then Ok []
    else if Req_dec_T D 0 then
      t <- Py.truediv (- B) (2 * A) ;;
      if in_bounds lb ub t then Ok [at_param x1 y1 x2 y2 t] else Ok []
    else
      for_each [-1; 1] [] (fun intersections sign =>
        s <- Py.math_sqrt D ;;
        t <- Py.truediv (- B + sign * s) (2 * A) ;;
        if in_bounds lb ub t
        then Ok (intersections ++ [at_param x1 y1 x2 y2 t])
        else Ok intersections).
Proof. reflexivity. Qed.

(** A degenerate segment makes the discriminant vanish, so the branch
    [det == 0] is taken and divides by [2 * A = 0]. *)
Lemma degenerate_det : A = 0 -> D = 0.
Proof.
  intros HA. pose proof HA as HA'.
  apply sum_sqr_zero in HA' as [Hx Hy].
  unfold det, coef_B. rewrite HA, Hx, Hy. ring.
Qed.

Lemma circle_line_intersection_degenerate (lb ub : bool) :
  A = 0 ->
  circle_line_intersection cx cy cr x1 y1 x2 y2 lb ub
  = Raise ZeroDivisionError.
Proof.
  intros HA. pose proof (degenerate_det HA) as HD.
  rewrite circle_line_intersection_unfold.
  destruct (Py.lt D 0) eqn:E; [apply lt_true in E; lra | ].
  destruct (Req_dec_T D 0) as [_ | N]; [ | contradiction].
  rewrite HA. replace (2 * 0) with 0 by ring.
  now rewrite truediv_zero.
Qed.

Hypothesis nondegenerate : A <> 0.

Lemma circle_line_intersection_closed (lb ub : bool) :
  circle_line_intersection cx cy cr x1 y1 x2 y2 lb ub
  = Ok (map (at_param x1 y1 x2 y2)
          (filter (in_bounds lb ub) (roots cx cy cr x1 y1 x2 y2))).
Proof.
  rewrite circle_line_intersection_unfold. unfold roots.
  destruct (Py.lt D 0) eqn:E; [reflexivity | ].
  apply lt_false in E.
  destruct (Req_dec_T D 0) as [Z | N].
  - rewrite truediv_ok by lra. cbn [bind filter map].
    now destruct (in_bounds lb ub _).
  - cbn [for_each bind].
    rewrite math_sqrt_ok by exact E. cbn [bind].
    rewrite !truediv_ok by lra. cbn [bind filter map].
    change ((- B + -1 * sqrt D) / (2 * A))
      with (root cx cy cr x1 y1 x2 y2 (-1)).
    change ((- B + 1 * sqrt D) / (2 * A))
      with (root cx cy cr x1 y1 x2 y2 1).
    destruct (in_bounds lb ub (root cx cy cr x1 y1 x2 y2 (-1)));
      destruct (in_bounds lb ub (root cx cy cr x1 y1 x2 y2 1));
      reflexivity.
Qed.

End IntersectionFacts.

(** The roots the code computes are the solutions of the quadratic, and a
    point of the line is on the circle exactly at a solution. *)
Section QuadraticFacts.

Variables cx cy cr x1 y1 x2 y2 : R.

Local Abbreviation A := (coef_A x1 y1 x2 y2).
Local Abbreviation B := (coef_B cx cy x1 y1 x2 y2).
Local Abbreviation C := (coef_C cx cy cr x1 y1).
Local Abbreviation D := (det cx cy cr x1 y1 x2 y2).

Lemma on_circle_param (t : R) :
  on_circle cx cy cr (at_param x1 y1 x2 y2 t) <-> A * t * t + B * t + C = 0.
Proof.
  unfold on_circle, at_param, coef_A, coef_B, coef_C. cbn [fst snd].
  split; intros H.
  - apply Rminus_diag_eq in H. rewrite <- H. ring.
  - apply Rminus_diag_uniq. rewrite <- H. ring.
Qed.

Lemma completed_square (t : R) :
  4 * A * (A * t * t + B * t + C) = (2 * A * t + B) ^ 2 - D.
Proof. unfold det. ring. Qed.

Hypothesis nondegenerate : A <> 0.

Lemma root_solves (sign : R) :
  sign * sign = 1 -> 0 <= D ->
  A * root cx cy cr x1 y1 x2 y2 sign * root cx cy cr x1 y1 x2 y2 sign
  + B * root cx cy cr x1 y1 x2 y2 sign + C = 0.
Proof.
  intros Hs HD.
  pose proof (sqrt_sqrt D HD) as Hq.
  apply Rmult_eq_reg_l with (4 * A); [ | lra].
  rewrite completed_square. unfold root.
  replace (2 * A * ((- B + sign * sqrt D) / (2 * A)) + B)
    with (sign * sqrt D) by (field; exact nondegenerate).
  replace ((sign * sqrt D) ^ 2)
    with ((sign * sign) * (sqrt D * sqrt D)) by ring.
  rewrite Hs, Hq. ring.
Qed.

Lemma roots_solve (t : R) :
  In t (roots cx cy cr x1 y1 x2 y2) -> A * t * t + B * t + C = 0.
Proof.
  unfold roots.
  destruct (Py.lt D 0) eqn:E; [intros [] | ].
  apply lt_false in E.
  destruct (Req_dec_T D 0) as [Z | N].
  - intros [<- | []].
    apply Rmult_eq_reg_l with (4 * A); [ | lra].
    rewrite completed_square, Z.
    replace (2 * A * (- B / (2 * A)) + B) with 0
      by (field; exact nondegenerate).
    ring.
  - intros [<- | [<- | []]]; apply root_solves; lra.
Qed.

Lemma solution_in_roots (t : R) :
  A * t * t + B * t + C = 0 -> In t (roots cx cy cr x1 y1 x2 y2).
Proof.
  intros H.
  pose proof (completed_square t) as Hc. rewrite H in Hc.
  pose proof (pow2_ge_0 (2 * A * t + B)) as Hsq.
  assert (HD : 0 <= D) by lra.
  unfold roots.
  destruct (Py.lt D 0) eqn:E; [apply lt_true in E; lra | ].
  destruct (Req_dec_T D 0) as [Z | N].
  - left.
    assert (H0 : 2 * A * t + B = 0).
    { destruct (Req_dec_T (2 * A * t + B) 0) as [E0 | N0]; [exact E0 | ].
      pose proof (sqr_pos _ N0). lra. }
    replace B with (- (2 * A * t)) by lra. field. exact nondegenerate.
  - pose proof (sqrt_sqrt D HD) as Hq.
    pose proof (sqrt_pos D) as Hp.
    assert (Hf : (2 * A * t + B - sqrt D) * (2 * A * t + B + sqrt D) = 0).
    { replace ((2 * A * t + B - sqrt D) * (2 * A * t + B + sqrt D))
        with ((2 * A * t + B) ^ 2 - sqrt D * sqrt D) by ring.
      lra. }
    apply Rmult_integral in Hf as [Hm | Hm].
    + right. left. unfold root.
      replace (sqrt D) with (2 * A * t + B) by lra.
      field. exact nondegenerate.
    + left. unfold root.
      replace (sqrt D) with (- (2 * A * t + B)) by lra.
      field. exact nondegenerate.
Qed.

Lemma roots_spec (t : R) :
  In t (roots cx cy cr x1 y1 x2 y2) <-> A * t * t + B * t + C = 0.
Proof. split; [apply roots_solve | apply solution_in_roots]. Qed.

(** The points returned: those of the line on the circle whose parameter
    passes the bounds test. *)
Lemma circle_line_intersection_spec (lb ub : bool) (p : point) :
  (exists ps,
      circle_line_intersection cx cy cr x1 y1 x2 y2 lb ub = Ok ps /\ In p ps)
  <-> (exists t,
          p = at_param x1 y1 x2 y2 t
          /\ on_circle cx cy cr p
          /\ in_bounds lb ub t = true).
Proof.
  rewrite circle_line_intersection_closed by exact nondegenerate.
  split.
  - intros (ps & E & Hin). injection E as <-.
    apply in_map_iff in Hin as (t & <- & Ht).
    apply filter_In in Ht as [Hr Hb].
    exists t. split; [reflexivity | split; [ | exact Hb]].
    apply on_circle_param, roots_solve, Hr.
  - intros (t & -> & Hon & Hb).
    eexists. split; [reflexivity | ].
    apply in_map, filter_In. split; [ | exact Hb].
    apply solution_in_roots, on_circle_param, Hon.
Qed.

End QuadraticFacts.

(** ** Results on circle_line_intersection *)

(** C2, as the code has it: on a segment with coincident endpoints
    [A = 0], hence [det = 0], and the branch [det == 0] evaluates
    [-B / (2 * A)]: the call ends in the [ZeroDivisionError] of that
    division, whatever the circle and the bound flags; there is no test of
    [A] and no exception of the code's own. *)
Theorem degenerate_segment_divides_by_zero
  (cx cy cr x1 y1 x2 y2 : R) (lb ub : bool) :
  (x1, y1) = (x2, y2) ->
  coef_A x1 y1 x2 y2 = 0
  /\ det cx cy cr x1 y1 x2 y2 = 0
  /\ circle_line_intersection cx cy cr x1 y1 x2 y2 lb ub
     = Raise ZeroDivisionError.
Proof.
  intros E. apply coef_A_zero in E.
  split; [exact E | split].
  - now apply degenerate_det.
  - now apply circle_line_intersection_degenerate.
Qed.

(** The unit circle and the segment from the origin to itself. *)
Lemma degenerate_segment_divides_by_zero_witness :
  coef_A 0 0 0 0 = 0
  /\ det 0 0 1 0 0 0 0 = 0
  /\ circle_line_intersection 0 0 1 0 0 0 0 true true
     = Raise ZeroDivisionError.
Proof.
  exact (degenerate_segment_divides_by_zero 0 0 1 0 0 0 0 true true eq_refl).
Defined.

(** C2 as stated fails: the unit circle with the segment from the origin to
    itself ends in [ZeroDivisionError], not in [InvalidGeometry]. *)
Lemma degenerate_segment_not_InvalidGeometry :
  (0, 0) = (0, 0) :> point
  /\ circle_line_intersection 0 0 1 0 0 0 0 true true
     = Raise ZeroDivisionError
  /\ circle_line_intersection 0 0 1 0 0 0 0 true true
     <> Raise InvalidGeometry.
Proof.
  assert (E : circle_line_intersection 0 0 1 0 0 0 0 true true
              = Raise ZeroDivisionError).
  { apply circle_line_intersection_degenerate. unfold coef_A. ring. }
  split; [reflexivity | split; [exact E | ]].
  rewrite E. discriminate.
Qed.

Lemma in_bounds_segment (t : R) :
  in_bounds true true t = false <-> t < 0 \/ 1 < t.
Proof.
  unfold in_bounds. cbn [negb orb].
  destruct (Py.ge t 0) eqn:G, (Py.le t 1) eqn:L; cbn [andb];
    try apply ge_true in G; try apply ge_false in G;
    try apply le_true in L; try apply le_false in L;
    split; intros H; try discriminate; try reflexivity; lra.
Qed.

Lemma in_bounds_line (t : R) : in_bounds false false t = true.
Proof. reflexivity. Qed.

(** C6: on a segment with distinct endpoints, a negative discriminant gives
    the empty list under any bound flags; and when the discriminant is not
    negative but both roots [(-B -/+ sqrt det) / (2 A)] are outside [0, 1],
    the call with both bounds gives the empty list although the call without
    bounds returns a point of the circle. *)
Theorem circle_line_intersection_empty (cx cy cr x1 y1 x2 y2 : R) :
  (x1, y1) <> (x2, y2) ->
  (det cx cy cr x1 y1 x2 y2 < 0 ->
   forall lb ub,
     circle_line_intersection cx cy cr x1 y1 x2 y2 lb ub = Ok [])
  /\ (0 <= det cx cy cr x1 y1 x2 y2 ->
      (root cx cy cr x1 y1 x2 y2 (-1) < 0
       \/ 1 < root cx cy cr x1 y1 x2 y2 (-1)) ->
      (root cx cy cr x1 y1 x2 y2 1 < 0
       \/ 1 < root cx cy cr x1 y1 x2 y2 1) ->
      circle_line_intersection cx cy cr x1 y1 x2 y2 true true = Ok []
      /\ exists p ps,
           circle_line_intersection cx cy cr x1 y1 x2 y2 false false
           = Ok (p :: ps)
           /\ on_circle cx cy cr p).
Proof.
  intros Hne. pose proof (coef_A_pos _ _ _ _ Hne) as HA.
  assert (HA0 : coef_A x1 y1 x2 y2 <> 0) by lra.
  split.
  - intros HD lb ub.
    rewrite circle_line_intersection_closed by exact HA0.
    unfold roots. apply lt_true in HD. now rewrite HD.
  - intros HD Hm Hp.
    apply in_bounds_segment in Hm, Hp.
    rewrite !circle_line_intersection_closed by exact HA0.
    assert (Hroots :
      roots cx cy cr x1 y1 x2 y2 = [root cx cy cr x1 y1 x2 y2 1]
      \/ roots cx cy cr x1 y1 x2 y2
         = [root cx cy cr x1 y1 x2 y2 (-1); root cx cy cr x1 y1 x2 y2 1]).
    { unfold roots.
      destruct (Py.lt _ 0) eqn:E; [apply lt_true in E; lra | ].
      destruct (Req_dec_T _ 0) as [Z | N]; [left | now right].
      unfold root. rewrite Z, sqrt_0. do 2 f_equal. ring. }
    assert (Hon : on_circle cx cy cr
                    (at_param x1 y1 x2 y2 (root cx cy cr x1 y1 x2 y2 (-1)))
                  /\ on_circle cx cy cr
                    (at_param x1 y1 x2 y2 (root cx cy cr x1 y1 x2 y2 1))).
    { split; apply on_circle_param, root_solves; (exact HA0 || lra). }
    destruct Hroots as [-> | ->]; cbn [filter map]; rewrite ?Hm, ?Hp;
      (split; [reflexivity | ]); do 2 eexists; (split; [reflexivity | ]);
      apply Hon.
Qed.

(** The unit circle and the segment from (2,0) to (3,0): the line meets the
    circle at parameters -3 and -1, before the segment begins. *)
Lemma circle_line_intersection_empty_witness :
  circle_line_intersection 0 0 1 2 0 3 0 true true = Ok []
  /\ exists p ps,
       circle_line_intersection 0 0 1 2 0 3 0 false false = Ok (p :: ps)
       /\ on_circle 0 0 1 p.
Proof.
  assert (Hne : (2, 0) <> (3, 0)).
  { intros E. apply (f_equal fst) in E. cbn in E. lra. }
  assert (HD : det 0 0 1 2 0 3 0 = 2 * 2).
  { unfold det, coef_A, coef_B, coef_C. ring. }
  assert (HS : sqrt (det 0 0 1 2 0 3 0) = 2).
  { apply sqrt_of_square; [lra | exact HD]. }
  assert (HA : coef_A 2 0 3 0 = 1) by (unfold coef_A; ring).
  assert (HB : coef_B 0 0 2 0 3 0 = 4) by (unfold coef_B; ring).
  apply (circle_line_intersection_empty 0 0 1 2 0 3 0 Hne).
  - rewrite HD. lra.
  - left. unfold root. rewrite HS, HA, HB. lra.
  - left. unfold root. rewrite HS, HA, HB. lra.
Defined.

(** ** get_first_intersection in closed form *)

Lemma in_bounds_ray (t : R) : in_bounds true false t = true <-> 0 <= t.
Proof.
  unfold in_bounds. cbn [negb orb]. rewrite andb_true_r. apply ge_true.
Qed.

(** Selection of the first candidate with the least key, as the loop body
    [closer] performs it. *)
Section Selection.

Variable ray : segment.

Local Abbreviation step :=
  (fun (first : option (point * circle)) (ic : point * circle) =>
     closer ray (snd ic) first (fst ic)).

Lemma fold_closer_pairs (c : circle) (l : list point)
  (first : option (point * circle)) :
  fold_left (closer ray c) l first
  = fold_left step (map (fun i => (i, c)) l) first.
Proof.
  revert first. induction l as [ | i l IH]; intros first; [reflexivity | ].
  cbn [map fold_left fst snd]. apply IH.
Qed.

Lemma closer_some (c : circle) (first : option (point * circle))
  (i : point) :
  exists x, closer ray c first i = Some x
    /\ (x = (i, c) \/ first = Some x)
    /\ x_distance ray (fst x) <= x_distance ray i
    /\ (forall y, first = Some y ->
                  x_distance ray (fst x) <= x_distance ray (fst y)).
Proof.
  unfold closer, x_distance.
  destruct first as [[p c'] | ].
  - destruct (Py.lt _ _) eqn:E.
    + apply lt_true in E. exists (i, c). cbn [fst].
      repeat split; [now left | lra | ].
      intros y [= <-]. cbn [fst]. lra.
    + apply lt_false in E. exists (p, c'). cbn [fst].
      repeat split; [now right | lra | ].
      intros y [= <-]. cbn [fst]. lra.
  - exists (i, c). cbn [fst].
    repeat split; [now left | lra | discriminate].
Qed.

Lemma fold_step_none (l : list (point * circle)) :
  fold_left step l None = None <-> l = [].
Proof.
  split; [ | now intros ->].
  destruct l as [ | [i c] l]; [reflexivity | ].
  cbn [fold_left fst snd closer]. intros H. exfalso.
  revert H. generalize (i, c). clear i c.
  induction l as [ | [i c] l IH]; intros x; [discriminate | ].
  cbn [fold_left fst snd].
  destruct (closer_some c (Some x) i) as (x' & -> & _). apply IH.
Qed.

Lemma fold_step_some (l : list (point * circle))
  (first : option (point * circle)) (x : point * circle) :
  fold_left step l first = Some x ->
  (first = Some x \/ In x l)
  /\ (forall y, first = Some y \/ In y l ->
                x_distance ray (fst x) <= x_distance ray (fst y)).
Proof.
  revert first. induction l as [ | [i c] l IH]; intros first.
  - cbn [fold_left]. intros ->. split; [now left | ].
    intros y [[= <-] | []]. lra.
  - cbn [fold_left fst snd]. intros H.
    destruct (closer_some c first i) as (x' & E' & Hx' & Hi & Hfirst).
    rewrite E' in H. apply IH in H as [Hin Hmin].
    split.
    + destruct Hin as [[= <-] | Hin].
      * destruct Hx' as [-> | Hx']; [right; now left | now left].
      * right. now right.
    + intros y [Hy | [<- | Hy]].
      * apply Rle_trans with (x_distance ray (fst x')).
        -- apply Hmin. now left.
        -- now apply Hfirst.
      * cbn [fst]. apply Rle_trans with (x_distance ray (fst x')).
        -- apply Hmin. now left.
        -- exact Hi.
      * apply Hmin. now right.
Qed.

End Selection.

Section OcclusionFacts.

Variable ray : segment.
Hypothesis ray_proper : proper ray.

Lemma ray_nondegenerate :
  coef_A (seg_x1 ray) (seg_y1 ray) (seg_x2 ray) (seg_y2 ray) <> 0.
Proof. pose proof (coef_A_pos _ _ _ _ ray_proper). lra. Qed.

Lemma intersections_of_ray (c : circle) :
  circle_line_intersection (circle_x c) (circle_y c) (circle_r c)
    (seg_x1 ray) (seg_y1 ray) (seg_x2 ray) (seg_y2 ray) true false
  = Ok (hits ray c).
Proof. apply circle_line_intersection_closed, ray_nondegenerate. Qed.

Lemma hits_meet (c : circle) (p : point) :
  In p (hits ray c) <-> meets ray c p.
Proof.
  unfold hits, meets. rewrite in_map_iff. split.
  - intros (t & <- & Ht). apply filter_In in Ht as [Hr Hb].
    exists t. split; [now apply in_bounds_ray | split; [reflexivity | ]].
    apply on_circle_param, roots_solve; [apply ray_nondegenerate | exact Hr].
  - intros (t & Ht & -> & Hon). exists t. split; [reflexivity | ].
    apply filter_In. split; [ | now apply in_bounds_ray].
    apply solution_in_roots; [apply ray_nondegenerate | ].
    now apply on_circle_param.
Qed.

Lemma candidates_meet (circles : list circle) (p : point) (c : circle) :
  In (p, c) (candidates ray circles) <-> In c circles /\ meets ray c p.
Proof.
  unfold candidates. rewrite in_flat_map. split.
  - intros (c' & Hc' & Hin). apply in_map_iff in Hin as (i & [= <- <-] & Hi).
    split; [exact Hc' | now apply hits_meet].
  - intros [Hc Hm]. exists c. split; [exact Hc | ].
    apply in_map_iff. exists p. split; [reflexivity | now apply hits_meet].
Qed.

Lemma scan_closed (circles : list circle)
  (first : option (point * circle)) :
  for_each circles first (fun first_intersection c =>
    intersections <-
      circle_line_intersection (circle_x c) (circle_y c) (circle_r c)
        (seg_x1 ray) (seg_y1 ray) (seg_x2 ray) (seg_y2 ray) true false ;;
    match intersections with
    | [] => Ok first_intersection
    | _ => Ok (fold_left (closer ray c) intersections first_intersection)
    end)
  = Ok (fold_left (fun f ic => closer ray (snd ic) f (fst ic))
          (candidates ray circles) first).
Proof.
  revert first. induction circles as [ | c cs IH]; intros first.
  - reflexivity.
  - cbn [for_each]. rewrite intersections_of_ray. cbn [bind].
    unfold candidates. cbn [flat_map]. rewrite fold_left_app.
    rewrite <- fold_closer_pairs.
    destruct (hits ray c) as [ | i l] eqn:E; cbn [bind]; apply IH.
Qed.

Lemma get_first_intersection_closed (circles : list circle) :
  get_first_intersection circles ray
  = Ok (fold_left (fun f ic => closer ray (snd ic) f (fst ic))
          (candidates ray circles) None).
Proof. apply scan_closed. Qed.

End OcclusionFacts.

(** ** Results on get_first_intersection *)

(** C3: on a ray with distinct endpoints [get_first_intersection] returns.
    Each obstacle is queried with [lb] true and [ub] false, so its points
    are those of the circle at a parameter [t >= 0] with no upper limit.
    The result is [None] exactly when no obstacle has such a point;
    otherwise it is a point of one of the obstacles, paired with that
    obstacle, whose x-distance from the ray's first endpoint is least among
    all points of all obstacles. *)
Theorem get_first_intersection_nearest_x
  (circles : list circle) (ray : segment) :
  proper ray ->
  exists r,
    get_first_intersection circles ray = Ok r
    /\ (forall c, In c circles ->
          exists ps,
            circle_line_intersection (circle_x c) (circle_y c) (circle_r c)
              (seg_x1 ray) (seg_y1 ray) (seg_x2 ray) (seg_y2 ray) true false
            = Ok ps
            /\ forall p, In p ps <-> meets ray c p)
    /\ (r = None <-> forall c p, In c circles -> ~ meets ray c p)
    /\ (forall p c, r = Some (p, c) ->
          In c circles
          /\ meets ray c p
          /\ forall c' p', In c' circles -> meets ray c' p' ->
               x_distance ray p <= x_distance ray p').
Proof.
  intros Hray. eexists.
  split; [now apply get_first_intersection_closed | ].
  split; [ | split].
  - intros c _. exists (hits ray c).
    split; [now apply intersections_of_ray | ].
    intros p. now apply hits_meet.
  - rewrite fold_step_none. split.
    + intros E c p Hc Hm.
      assert (Hin : In (p, c) (candidates ray circles))
        by now apply candidates_meet.
      rewrite E in Hin. exact Hin.
    + intros Hnone.
      destruct (candidates ray circles) as [ | [p c] l] eqn:E;
        [reflexivity | ].
      assert (Hin : In (p, c) (candidates ray circles))
        by (rewrite E; now left).
      apply candidates_meet in Hin as [Hc Hm]; [ | exact Hray].
      now elim (Hnone c p).
  - intros p c E.
    apply fold_step_some in E as [[E | Hin] Hmin]; [discriminate | ].
    apply candidates_meet in Hin as [Hc Hm]; [ | exact Hray].
    split; [exact Hc | split; [exact Hm | ]].
    intros c' p' Hc' Hm'.
    apply (Hmin (p', c')). right. now apply candidates_meet.
Qed.

(** The ray from (0,0) through (1,0) and the circles of radius 1 about
    (5,0) and (2,0). *)
Lemma get_first_intersection_nearest_x_witness :
  exists r,
    get_first_intersection [Circle 5 0 1; Circle 2 0 1] (Segment 0 0 1 0)
    = Ok r
    /\ (forall c, In c [Circle 5 0 1; Circle 2 0 1] ->
          exists ps,
            circle_line_intersection (circle_x c) (circle_y c) (circle_r c)
              0 0 1 0 true false
            = Ok ps
            /\ forall p, In p ps <-> meets (Segment 0 0 1 0) c p)
    /\ (r = None <->
        forall c p, In c [Circle 5 0 1; Circle 2 0 1] ->
                    ~ meets (Segment 0 0 1 0) c p)
    /\ (forall p c, r = Some (p, c) ->
          In c [Circle 5 0 1; Circle 2 0 1]
          /\ meets (Segment 0 0 1 0) c p
          /\ forall c' p', In c' [Circle 5 0 1; Circle 2 0 1] ->
               meets (Segment 0 0 1 0) c' p' ->
               x_distance (Segment 0 0 1 0) p
               <= x_distance (Segment 0 0 1 0) p').
Proof.
  apply (get_first_intersection_nearest_x
           [Circle 5 0 1; Circle 2 0 1] (Segment 0 0 1 0)).
  unfold proper. cbn [seg_x1 seg_y1 seg_x2 seg_y2].
  intros E. apply (f_equal fst) in E. cbn in E. lra.
Defined.

(** Two ways to settle a query on given obstacles. *)
Lemma get_first_intersection_hit
  (circles : list circle) (ray : segment) (c : circle) (p : point) :
  proper ray -> In c circles -> meets ray c p ->
  exists hit, get_first_intersection circles ray = Ok (Some hit).
Proof.
  intros Hray Hc Hm.
  rewrite get_first_intersection_closed by exact Hray.
  destruct (fold_left _ (candidates ray circles) None) as [hit | ] eqn:E.
  - now exists hit.
  - apply fold_step_none in E.
    assert (Hin : In (p, c) (candidates ray circles))
      by now apply candidates_meet.
    rewrite E in Hin. destruct Hin.
Qed.

Lemma get_first_intersection_clear (circles : list circle) (ray : segment) :
  proper ray ->
  (forall c p, In c circles -> ~ meets ray c p) ->
  get_first_intersection circles ray = Ok None.
Proof.
  intros Hray Hnone.
  rewrite get_first_intersection_closed by exact Hray.
  f_equal. apply fold_step_none.
  destruct (candidates ray circles) as [ | [p c] l] eqn:E; [reflexivity | ].
  assert (Hin : In (p, c) (candidates ray circles)) by (rewrite E; now left).
  apply candidates_meet in Hin as [Hc Hm]; [ | exact Hray].
  now elim (Hnone c p).
Qed.

(** ** is_visible in closed form *)

(** A tangent is blocked when the occlusion query on it returns a hit. *)
Lemma is_visible_loop_spec (obstacles : list circle) (ts : list segment) :
  Forall proper ts ->
  exists b,
    is_visible_loop obstacles ts = Ok b
    /\ (b = false <->
        exists t hit,
          In t ts /\ get_first_intersection obstacles t = Ok (Some hit)).
Proof.
  induction ts as [ | t ts IH]; intros Hts.
  - exists true. split; [reflexivity | ].
    split; [discriminate | intros (t & hit & [] & _)].
  - inversion Hts as [ | ? ? Ht Hts']; subst.
    destruct (IH Hts') as (b & Eb & Hb).
    cbn [is_visible_loop].
    pose proof (get_first_intersection_closed t Ht obstacles) as E.
    destruct (fold_left _ (candidates t obstacles) None) as [hit | ].
    + rewrite E. cbn [bind]. exists false. split; [reflexivity | ].
      split; [ | reflexivity]. intros _. exists t, hit. split; [now left | exact E].
    + rewrite E. cbn [bind]. exists b. split; [exact Eb | ].
      rewrite Hb. split.
      * intros (t' & hit & Hin & Ehit). exists t', hit.
        split; [now right | exact Ehit].
      * intros (t' & hit & [<- | Hin] & Ehit).
        -- rewrite E in Ehit. discriminate.
        -- now exists t', hit.
Qed.

Lemma tangents_of_centres (target source : circle) :
  (get_tangents (circle_x source) (circle_y source) 0
     (circle_x target) (circle_y target) 0 = Ok []
   /\ (circle_x source, circle_y source) = (circle_x target, circle_y target))
  \/ (get_tangents (circle_x source) (circle_y source) 0
        (circle_x target) (circle_y target) 0
      = Ok (repeat (Segment (circle_x source) (circle_y source)
                      (circle_x target) (circle_y target)) 4)
      /\ (circle_x source, circle_y source)
         <> (circle_x target, circle_y target)).
Proof.
  destruct (Req_dec_T (circle_x source) (circle_x target)) as [Ex | Nx].
  - destruct (Req_dec_T (circle_y source) (circle_y target)) as [Ey | Ny].
    + left. split; [ | now rewrite Ex, Ey].
      apply get_tangents_nested_here. rewrite Ex, Ey. unfold d_sq. lra.
    + right. assert (Hne : (circle_x source, circle_y source)
                           <> (circle_x target, circle_y target))
        by (intros [= _ E]; contradiction).
      split; [now apply get_tangents_of_points | exact Hne].
  - right. assert (Hne : (circle_x source, circle_y source)
                         <> (circle_x target, circle_y target))
      by (intros [= E _]; contradiction).
    split; [now apply get_tangents_of_points | exact Hne].
Qed.

(** With distinct centres the answer is that of one query on the segment
    between them. *)
Lemma is_visible_line (target source : circle) (obstacles : list circle)
  (r : option (point * circle)) :
  (circle_x source, circle_y source) <> (circle_x target, circle_y target) ->
  get_first_intersection obstacles
    (Segment (circle_x source) (circle_y source)
       (circle_x target) (circle_y target)) = Ok r ->
  is_visible target source obstacles
  = Ok (match r with Some _ => false | None => true end).
Proof.
  intros Hne E. unfold is_visible.
  rewrite get_tangents_of_points by exact Hne.
  cbn [bind is_visible_loop]. rewrite !E.
  now destruct r.
Qed.

(** ** The scenario of two circles of radius 5, centres (0,0) and (20,0) *)

Lemma sqrt3_sqr : sqrt 3 * sqrt 3 = 3.
Proof. apply sqrt_sqrt. lra. Qed.

Lemma scenario_dist : dist 0 0 20 0 = 20.
Proof. apply dist_eq; [lra | unfold d_sq; ring]. Qed.

Lemma scenario_cosine_plus : cosine 0 0 5 20 0 5 1 = 0.
Proof. unfold cosine. rewrite scenario_dist. lra. Qed.

Lemma scenario_cosine_minus : cosine 0 0 5 20 0 5 (-1) = 1 / 2.
Proof. unfold cosine. rewrite scenario_dist. lra. Qed.

Lemma scenario_sine_plus : sine 0 0 5 20 0 5 1 = 1.
Proof.
  unfold sine. rewrite scenario_cosine_plus.
  rewrite max_zero_id by lra.
  apply sqrt_of_square; lra.
Qed.

Lemma scenario_sine_minus : sine 0 0 5 20 0 5 (-1) = sqrt 3 / 2.
Proof.
  pose proof sqrt3_sqr as H3. pose proof (sqrt_pos 3) as Hp.
  unfold sine. rewrite scenario_cosine_minus.
  rewrite max_zero_id by lra.
  apply sqrt_of_square; [lra | ]. nra.
Qed.

Lemma scenario_tangents :
  get_tangents 0 0 5 20 0 5
  = Ok [Segment 0 5 20 5;
        Segment 0 (-5) 20 (-5);
        Segment (5 / 2) (5 * sqrt 3 / 2) (35 / 2) (- (5 * sqrt 3 / 2));
        Segment (5 / 2) (- (5 * sqrt 3 / 2)) (35 / 2) (5 * sqrt 3 / 2)].
Proof.
  rewrite get_tangents_four.
  - unfold tangent, dir_x, dir_y.
    rewrite scenario_dist, scenario_cosine_plus, scenario_cosine_minus,
      scenario_sine_plus, scenario_sine_minus.
    do 2 f_equal; [ | f_equal; [ | f_equal; [ | f_equal]]];
      f_equal; lra.
  - unfold d_sq. lra.
  - rewrite scenario_cosine_minus. lra.
Qed.

Lemma external_clear (y : R) :
  y * y = 25 ->
  get_first_intersection [Circle 10 0 3] (Segment 0 y 20 y) = Ok None.
Proof.
  intros Hy. apply get_first_intersection_clear.
  - unfold proper. cbn [seg_x1 seg_y1 seg_x2 seg_y2].
    intros E. apply (f_equal fst) in E. cbn in E. lra.
  - intros c p [<- | []] (t & _ & -> & Hon).
    unfold on_circle, at_param in Hon.
    cbn [fst snd circle_x circle_y circle_r seg_x1 seg_y1 seg_x2 seg_y2] in Hon.
    pose proof (pow2_ge_0 (0 + t * (20 - 0) - 10)).
    replace ((y + t * (y - y) - 0) ^ 2) with (y * y) in Hon by ring.
    lra.
Qed.

Lemma internal_hit (s : R) :
  s * s = 3 ->
  exists hit,
    get_first_intersection [Circle 10 0 3]
      (Segment (5 / 2) (5 * s / 2) (35 / 2) (- (5 * s / 2))) = Ok (Some hit).
Proof.
  intros Hs.
  assert (Hb : -5 <= s) by nra.
  apply get_first_intersection_hit
    with (c := Circle 10 0 3)
         (p := at_param (5 / 2) (5 * s / 2) (35 / 2) (- (5 * s / 2))
                 (1 / 2 + s / 10)).
  - unfold proper. cbn [seg_x1 seg_y1 seg_x2 seg_y2].
    intros E. apply (f_equal fst) in E. cbn in E. lra.
  - now left.
  - (* the line passes through the obstacle's centre at t = 1/2 and leaves
       or enters the circle at t = 1/2 + s/10 *)
    unfold meets. cbn [seg_x1 seg_y1 seg_x2 seg_y2 circle_x circle_y circle_r].
    exists (1 / 2 + s / 10). split; [lra | split; [reflexivity | ]].
    unfold on_circle, at_param. cbn [fst snd].
    replace ((5 / 2 + (1 / 2 + s / 10) * (35 / 2 - 5 / 2) - 10) ^ 2
             + (5 * s / 2 + (1 / 2 + s / 10) * (- (5 * s / 2) - 5 * s / 2)
                - 0) ^ 2)
      with (9 / 4 * (s * s) + (s * s) * (s * s) / 4) by field.
    rewrite Hs. lra.
Qed.

(** C7: circles of radius 5 about (0,0) and (20,0) have exactly four
    tangents: two external ones on the lines y = 5 and y = -5 from x = 0 to
    x = 20, and two distinct internal ones that both pass through the
    midpoint (10,0) at parameter 1/2.  With the one obstacle of radius 3
    about (10,0), the occlusion query reports no hit on either external
    tangent and a hit on each internal tangent. *)
Theorem scenario_tangents_and_hits :
  exists e1 e2 i1 i2,
    get_tangents 0 0 5 20 0 5 = Ok [e1; e2; i1; i2]
    /\ e1 = Segment 0 5 20 5
    /\ e2 = Segment 0 (-5) 20 (-5)
    /\ at_param (seg_x1 i1) (seg_y1 i1) (seg_x2 i1) (seg_y2 i1) (1 / 2)
       = (10, 0)
    /\ at_param (seg_x1 i2) (seg_y1 i2) (seg_x2 i2) (seg_y2 i2) (1 / 2)
       = (10, 0)
    /\ i1 <> i2
    /\ get_first_intersection [Circle 10 0 3] e1 = Ok None
    /\ get_first_intersection [Circle 10 0 3] e2 = Ok None
    /\ (exists hit, get_first_intersection [Circle 10 0 3] i1 = Ok (Some hit))
    /\ (exists hit, get_first_intersection [Circle 10 0 3] i2 = Ok (Some hit)).
Proof.
  pose proof sqrt3_sqr as H3.
  do 4 eexists. split; [apply scenario_tangents | ].
  split; [reflexivity | split; [reflexivity | ]].
  cbn [seg_x1 seg_y1 seg_x2 seg_y2]. unfold at_param.
  split; [f_equal; lra | split; [f_equal; lra | ]].
  split.
  { intros E. apply (f_equal seg_y1) in E. cbn [seg_y1] in E. nra. }
  split; [apply external_clear; lra | ].
  split; [apply external_clear; lra | ].
  split; [now apply internal_hit | ].
  replace (Segment (5 / 2) (- (5 * sqrt 3 / 2)) (35 / 2) (5 * sqrt 3 / 2))
    with (Segment (5 / 2) (5 * (- sqrt 3) / 2) (35 / 2)
            (- (5 * (- sqrt 3) / 2)))
    by (f_equal; lra).
  apply internal_hit. lra.
Qed.

(** ** Results on is_visible *)

(** C1, as the code has it: [is_visible] always returns.  It calls
    [get_tangents] on the two centres with both radii 0, whatever radii the
    circles carry, and answers [False] exactly when the occlusion query
    reports a hit on one of those tangents. *)
Theorem is_visible_by_centres
  (target source : circle) (obstacles : list circle) :
  exists tangents b,
    get_tangents (circle_x source) (circle_y source) 0
      (circle_x target) (circle_y target) 0 = Ok tangents
    /\ is_visible target source obstacles = Ok b
    /\ (b = false <->
        exists t hit,
          In t tangents
          /\ get_first_intersection obstacles t = Ok (Some hit))
    /\ is_visible target source obstacles
       = is_visible (Circle (circle_x target) (circle_y target) 0)
           (Circle (circle_x source) (circle_y source) 0) obstacles.
Proof.
  assert (Hts : exists tangents,
             get_tangents (circle_x source) (circle_y source) 0
               (circle_x target) (circle_y target) 0 = Ok tangents
             /\ Forall proper tangents).
  { destruct (tangents_of_centres target source) as [[E _] | [E Hne]].
    - exists []. split; [exact E | constructor].
    - eexists. split; [exact E | ]. cbn [repeat].
      repeat constructor; exact Hne. }
  destruct Hts as (tangents & E & Hproper).
  destruct (is_visible_loop_spec obstacles tangents Hproper) as (b & Eb & Hb).
  exists tangents, b. split; [exact E | ].
  split; [unfold is_visible; rewrite E; exact Eb | ].
  split; [exact Hb | reflexivity].
Qed.

(** C1 as stated fails: for circles of radius 5 about (0,0) and (20,0) and
    an obstacle of radius 1 about (10,5), the first tangent between the
    circles as given, on the line y = 5, is hit, yet [is_visible] answers
    [True]. *)
Lemma is_visible_ignores_radii :
  exists rest hit,
    get_tangents 0 0 5 20 0 5 = Ok (Segment 0 5 20 5 :: rest)
    /\ get_first_intersection [Circle 10 5 1] (Segment 0 5 20 5)
       = Ok (Some hit)
    /\ is_visible (Circle 20 0 5) (Circle 0 0 5) [Circle 10 5 1] = Ok true.
Proof.
  assert (Hhit : exists hit,
             get_first_intersection [Circle 10 5 1] (Segment 0 5 20 5)
             = Ok (Some hit)).
  { apply get_first_intersection_hit
      with (c := Circle 10 5 1) (p := at_param 0 5 20 5 (9 / 20)).
    - unfold proper. cbn [seg_x1 seg_y1 seg_x2 seg_y2].
      intros E. apply (f_equal fst) in E. cbn in E. lra.
    - now left.
    - exists (9 / 20). split; [lra | split; [reflexivity | ]].
      unfold on_circle, at_param. cbn [fst snd circle_x circle_y circle_r].
      field. }
  destruct Hhit as (hit & Ehit).
  eexists. exists hit.
  split; [apply scenario_tangents | split; [exact Ehit | ]].
  apply (is_visible_line (Circle 20 0 5) (Circle 0 0 5) [Circle 10 5 1] None).
  - cbn [circle_x circle_y]. intros E. apply (f_equal fst) in E.
    cbn in E. lra.
  - cbn [circle_x circle_y]. apply get_first_intersection_clear.
    + unfold proper. cbn [seg_x1 seg_y1 seg_x2 seg_y2].
      intros E. apply (f_equal fst) in E. cbn in E. lra.
    + intros c p [<- | []] (t & _ & -> & Hon).
      unfold on_circle, at_param in Hon.
      cbn [fst snd circle_x circle_y circle_r
           seg_x1 seg_y1 seg_x2 seg_y2] in Hon.
      pose proof (pow2_ge_0 (0 + t * (20 - 0) - 10)).
      replace ((0 + t * (0 - 0) - 5) ^ 2) with 25 in Hon by ring.
      lra.
Qed.

Lemma filter_none {X : Type} (f : X -> bool) (l : list X) :
  (forall x, In x l -> f x = false) -> filter f l = [].
Proof.
  induction l as [ | x l IH]; intros H; [reflexivity | ].
  cbn [filter]. rewrite (H x) by now left.
  apply IH. intros y Hy. apply H. now right.
Qed.

(** A segment that the circle does not touch between its endpoints. *)
Lemma bounded_intersection_empty (cx cy cr x1 y1 x2 y2 : R) :
  (x1, y1) <> (x2, y2) ->
  (forall t, on_circle cx cy cr (at_param x1 y1 x2 y2 t) -> t < 0 \/ 1 < t) ->
  circle_line_intersection cx cy cr x1 y1 x2 y2 true true = Ok [].
Proof.
  intros Hne Hout. pose proof (coef_A_pos _ _ _ _ Hne) as HA.
  assert (HA0 : coef_A x1 y1 x2 y2 <> 0) by lra.
  rewrite circle_line_intersection_closed by exact HA0.
  rewrite filter_none; [reflexivity | ].
  intros t Ht. apply in_bounds_segment, Hout, on_circle_param.
  now apply roots_solve.
Qed.

(** C8: a source at (0,0), a target at (10,0) and one obstacle of radius 1
    about (20,0).  The obstacle lies on the line of sight strictly beyond
    the target and leaves the segment from source to target untouched, yet
    the query on the ray without upper bound hits it and [is_visible]
    answers [False]. *)
Theorem obstacle_beyond_target_blocks :
  exists source target obstacle,
    beyond_target source target obstacle
    /\ circle_line_intersection
         (circle_x obstacle) (circle_y obstacle) (circle_r obstacle)
         (circle_x source) (circle_y source)
         (circle_x target) (circle_y target) true true = Ok []
    /\ (exists hit,
          get_first_intersection [obstacle]
            (Segment (circle_x source) (circle_y source)
               (circle_x target) (circle_y target)) = Ok (Some hit))
    /\ is_visible target source [obstacle] = Ok false.
Proof.
  exists (Circle 0 0 0), (Circle 10 0 0), (Circle 20 0 1).
  cbn [circle_x circle_y circle_r].
  assert (Hne : (0, 0) <> (10, 0)).
  { intros E. apply (f_equal fst) in E. cbn in E. lra. }
  assert (Hhit : exists hit,
             get_first_intersection [Circle 20 0 1] (Segment 0 0 10 0)
             = Ok (Some hit)).
  { apply get_first_intersection_hit
      with (c := Circle 20 0 1) (p := at_param 0 0 10 0 (19 / 10)).
    - exact Hne.
    - now left.
    - exists (19 / 10). split; [lra | split; [reflexivity | ]].
      unfold on_circle, at_param. cbn [fst snd circle_x circle_y circle_r].
      field. }
  assert (Hpast : forall t,
             (0 + t * (10 - 0) - 20) ^ 2 + (0 + t * (0 - 0) - 0) ^ 2 <= 1 ^ 2 ->
             1 < t).
  { intros t Ht.
    replace ((0 + t * (10 - 0) - 20) ^ 2 + (0 + t * (0 - 0) - 0) ^ 2)
      with ((10 * t - 20) * (10 * t - 20)) in Ht by ring.
    nra. }
  split; [ | split; [ | split; [exact Hhit | ]]].
  - split.
    + exists 2. split; [lra | ].
      unfold at_param. cbn [circle_x circle_y]. f_equal; lra.
    + intros t. unfold in_disc, at_param.
      cbn [fst snd circle_x circle_y circle_r]. apply Hpast.
  - apply bounded_intersection_empty; [exact Hne | ].
    intros t Hon. right. apply Hpast.
    unfold on_circle, at_param in Hon. cbn [fst snd] in Hon.
    rewrite Hon. lra.
  - destruct Hhit as (hit & Ehit).
    apply (is_visible_line (Circle 10 0 0) (Circle 0 0 0) [Circle 20 0 1]
             (Some hit)); [exact Hne | exact Ehit].
Qed.

(** ** Worked evaluations *)

Lemma roots_distinct (cx cy cr x1 y1 x2 y2 s : R) :
  0 < s -> det cx cy cr x1 y1 x2 y2 = s * s ->
  roots cx cy cr x1 y1 x2 y2
  = [(- coef_B cx cy x1 y1 x2 y2 + -1 * s) / (2 * coef_A x1 y1 x2 y2);
     (- coef_B cx cy x1 y1 x2 y2 + 1 * s) / (2 * coef_A x1 y1 x2 y2)].
Proof.
  intros Hs HD.
  assert (Hq : sqrt (det cx cy cr x1 y1 x2 y2) = s)
    by (apply sqrt_of_square; [lra | exact HD]).
  unfold roots, root. rewrite Hq.
  destruct (Py.lt _ 0) eqn:E; [apply lt_true in E; nra | ].
  destruct (Req_dec_T _ 0) as [Z | N]; [nra | reflexivity].
Qed.

Lemma in_bounds_inside (lb ub : bool) (t : R) :
  0 <= t <= 1 -> in_bounds lb ub t = true.
Proof.
  intros [H0 H1]. unfold in_bounds.
  apply ge_true in H0. apply le_true in H1. rewrite H0, H1.
  now destruct lb, ub.
Qed.

Lemma in_bounds_forward (t : R) :
  0 <= t -> in_bounds true false t = true.
Proof. intros H. now apply in_bounds_ray. Qed.

(** A segment through the centre of the unit circle crosses it at two
    points symmetric about the centre, the one nearer to the segment's
    first endpoint first. *)
Example intersection_through_centre :
  circle_line_intersection 0 0 1 (-2) 0 2 0 true true
  = Ok [(-1, 0); (1, 0)].
Proof.
  rewrite circle_line_intersection_closed by (unfold coef_A; lra).
  rewrite (roots_distinct 0 0 1 (-2) 0 2 0 8)
    by (lra || (unfold det, coef_A, coef_B, coef_C; ring)).
  unfold coef_A, coef_B. cbn [filter].
  rewrite !in_bounds_inside by lra.
  cbn [map]. unfold at_param. do 2 f_equal; [ | f_equal]; f_equal; lra.
Qed.

Lemma hits_two (ray : segment) (c : circle) (s : R) :
  proper ray ->
  0 < s ->
  det (circle_x c) (circle_y c) (circle_r c)
    (seg_x1 ray) (seg_y1 ray) (seg_x2 ray) (seg_y2 ray) = s * s ->
  0 <= (- coef_B (circle_x c) (circle_y c)
          (seg_x1 ray) (seg_y1 ray) (seg_x2 ray) (seg_y2 ray) + -1 * s) ->
  hits ray c
  = map (at_param (seg_x1 ray) (seg_y1 ray) (seg_x2 ray) (seg_y2 ray))
      [(- coef_B (circle_x c) (circle_y c)
          (seg_x1 ray) (seg_y1 ray) (seg_x2 ray) (seg_y2 ray) + -1 * s)
       / (2 * coef_A (seg_x1 ray) (seg_y1 ray) (seg_x2 ray) (seg_y2 ray));
       (- coef_B (circle_x c) (circle_y c)
          (seg_x1 ray) (seg_y1 ray) (seg_x2 ray) (seg_y2 ray) + 1 * s)
       / (2 * coef_A (seg_x1 ray) (seg_y1 ray) (seg_x2 ray) (seg_y2 ray))].
Proof.
  intros Hray Hs HD Hfirst.
  pose proof (coef_A_pos _ _ _ _ Hray) as HA.
  unfold hits. rewrite (roots_distinct _ _ _ _ _ _ _ s Hs HD).
  cbn [filter].
  rewrite !in_bounds_forward
    by (apply Rmult_le_pos; [lra | apply Rlt_le, Rinv_0_lt_compat; lra]).
  reflexivity.
Qed.

(** Of two circles on the ray the one nearer in x wins although it comes
    second in the list; of its two points the first met is kept. *)
Example first_intersection_of_two :
  get_first_intersection [Circle 5 0 1; Circle 2 0 1] (Segment 0 0 1 0)
  = Ok (Some ((1, 0), Circle 2 0 1)).
Proof.
  assert (Hray : proper (Segment 0 0 1 0)).
  { unfold proper. cbn [seg_x1 seg_y1 seg_x2 seg_y2].
    intros E. apply (f_equal fst) in E. cbn in E. lra. }
  assert (H5 : hits (Segment 0 0 1 0) (Circle 5 0 1) = [(4, 0); (6, 0)]).
  { rewrite (hits_two _ _ 2 Hray);
      cbn [seg_x1 seg_y1 seg_x2 seg_y2 circle_x circle_y circle_r];
      unfold det, coef_A, coef_B, coef_C; try lra.
    cbn [map]. unfold at_param.
    repeat match goal with
           | |- _ :: _ = _ :: _ => f_equal
           | |- (_, _) = (_, _) => f_equal
           end; lra. }
  assert (H2 : hits (Segment 0 0 1 0) (Circle 2 0 1) = [(1, 0); (3, 0)]).
  { rewrite (hits_two _ _ 2 Hray);
      cbn [seg_x1 seg_y1 seg_x2 seg_y2 circle_x circle_y circle_r];
      unfold det, coef_A, coef_B, coef_C; try lra.
    cbn [map]. unfold at_param.
    repeat match goal with
           | |- _ :: _ = _ :: _ => f_equal
           | |- (_, _) = (_, _) => f_equal
           end; lra. }
  rewrite get_first_intersection_closed by exact Hray.
  unfold candidates. cbn [flat_map]. rewrite H5, H2.
  cbn [map app fold_left fst snd].
  assert (L1 : Py.lt (Rabs (6 - 0)) (Rabs (4 - 0)) = false)
    by (apply lt_false; rewrite !Rabs_pos_eq by lra; lra).
  assert (L2 : Py.lt (Rabs (1 - 0)) (Rabs (4 - 0)) = true)
    by (apply lt_true; rewrite !Rabs_pos_eq by lra; lra).
  assert (L3 : Py.lt (Rabs (3 - 0)) (Rabs (1 - 0)) = false)
    by (apply lt_false; rewrite !Rabs_pos_eq by lra; lra).
  unfold closer. cbn [fst seg_x1].
  rewrite L1. cbn [fst]. rewrite L2. cbn [fst]. rewrite L3.
  reflexivity.
Qed.

(** ** Further geometry of the tangents *)

(** The algebra behind one tangent, on the quantities of the loop body:
    [v] the unit direction, [c] and [h] with [h^2 = 1 - c^2], and the normal
    [n = (vx c - sign2 h vy, vy c + sign2 h vx)]. *)
Section TangentAlgebra.

Variables x1 y1 r1 x2 y2 r2 : R.
Hypothesis apart : (r1 - r2) ^ 2 < d_sq x1 y1 x2 y2.

Variables sign1 sign2 : R.
Hypothesis sign1_unit : sign1 * sign1 = 1.
Hypothesis sign2_unit : sign2 * sign2 = 1.
Hypothesis feasible :
  cosine x1 y1 r1 x2 y2 r2 sign1 * cosine x1 y1 r1 x2 y2 r2 sign1 <= 1.

Local Abbreviation d := (dist x1 y1 x2 y2).
Local Abbreviation c := (cosine x1 y1 r1 x2 y2 r2 sign1).
Local Abbreviation h := (sine x1 y1 r1 x2 y2 r2 sign1).
Local Abbreviation vx := (dir_x x1 y1 x2 y2).
Local Abbreviation vy := (dir_y x1 y1 x2 y2).
Local Abbreviation nx := (vx * c - sign2 * h * vy).
Local Abbreviation ny := (vy * c + sign2 * h * vx).
Local Abbreviation seg := (tangent x1 y1 r1 x2 y2 r2 sign1 sign2).

Lemma centres_by_dir : x2 - x1 = d * vx /\ y2 - y1 = d * vy.
Proof.
  pose proof (dist_pos x1 y1 r1 x2 y2 r2 apart) as Hd.
  unfold dir_x, dir_y. split; field; lra.
Qed.

Lemma radii_by_cosine : r1 - sign1 * r2 = d * c.
Proof.
  pose proof (dist_pos x1 y1 r1 x2 y2 r2 apart) as Hd.
  unfold cosine. field. lra.
Qed.

Lemma dir_dot_normal : vx * nx + vy * ny = c.
Proof.
  pose proof (dir_unit x1 y1 r1 x2 y2 r2 apart) as Hv.
  replace (vx * nx + vy * ny) with (c * (vx * vx + vy * vy)) by ring.
  rewrite Hv. ring.
Qed.

Lemma chord_x : seg_x2 seg - seg_x1 seg = d * (vx - c * nx).
Proof.
  destruct centres_by_dir as [Hx _]. pose proof radii_by_cosine as Hc.
  unfold tangent. cbn [seg_x1 seg_x2].
  replace (x2 + sign1 * r2 * nx - (x1 + r1 * nx))
    with ((x2 - x1) - (r1 - sign1 * r2) * nx) by ring.
  rewrite Hx, Hc. ring.
Qed.

Lemma chord_y : seg_y2 seg - seg_y1 seg = d * (vy - c * ny).
Proof.
  destruct centres_by_dir as [_ Hy]. pose proof radii_by_cosine as Hc.
  unfold tangent. cbn [seg_y1 seg_y2].
  replace (y2 + sign1 * r2 * ny - (y1 + r1 * ny))
    with ((y2 - y1) - (r1 - sign1 * r2) * ny) by ring.
  rewrite Hy, Hc. ring.
Qed.

(** The chord is perpendicular to the normal. *)
Lemma chord_dot_normal :
  (seg_x2 seg - seg_x1 seg) * nx + (seg_y2 seg - seg_y1 seg) * ny = 0.
Proof.
  pose proof (normal_unit x1 y1 r1 x2 y2 r2 apart sign1 sign2
                sign2_unit feasible) as Hn.
  pose proof dir_dot_normal as Hvn.
  rewrite chord_x, chord_y.
  replace (d * (vx - c * nx) * nx + d * (vy - c * ny) * ny)
    with (d * ((vx * nx + vy * ny) - c * (nx * nx + ny * ny))) by ring.
  rewrite Hvn, Hn. ring.
Qed.

Lemma tangent_bitangent : bitangent x1 y1 x2 y2 seg.
Proof.
  pose proof chord_dot_normal as H0.
  split; unfold perpendicular.
  - replace (seg_x1 seg - x1) with (r1 * nx)
      by (unfold tangent; cbn [seg_x1]; ring).
    replace (seg_y1 seg - y1) with (r1 * ny)
      by (unfold tangent; cbn [seg_y1]; ring).
    replace ((seg_x2 seg - seg_x1 seg) * (r1 * nx)
             + (seg_y2 seg - seg_y1 seg) * (r1 * ny))
      with (r1 * ((seg_x2 seg - seg_x1 seg) * nx
                  + (seg_y2 seg - seg_y1 seg) * ny)) by ring.
    rewrite H0. ring.
  - replace (seg_x2 seg - x2) with (sign1 * r2 * nx)
      by (unfold tangent; cbn [seg_x2]; ring).
    replace (seg_y2 seg - y2) with (sign1 * r2 * ny)
      by (unfold tangent; cbn [seg_y2]; ring).
    replace ((seg_x2 seg - seg_x1 seg) * (sign1 * r2 * nx)
             + (seg_y2 seg - seg_y1 seg) * (sign1 * r2 * ny))
      with (sign1 * r2 * ((seg_x2 seg - seg_x1 seg) * nx
                          + (seg_y2 seg - seg_y1 seg) * ny)) by ring.
    rewrite H0. ring.
Qed.

(** The squared length of a tangent: [d^2 - (r1 - sign1 r2)^2]. *)
Lemma tangent_sq_length :
  sq_length seg = d_sq x1 y1 x2 y2 - (r1 - sign1 * r2) ^ 2.
Proof.
  pose proof (normal_unit x1 y1 r1 x2 y2 r2 apart sign1 sign2
                sign2_unit feasible) as Hn.
  pose proof (dir_unit x1 y1 r1 x2 y2 r2 apart) as Hv.
  pose proof dir_dot_normal as Hvn.
  pose proof (dist_sqr x1 y1 x2 y2) as Hd.
  unfold sq_length. rewrite chord_x, chord_y, radii_by_cosine, <- Hd.
  replace ((d * (vx - c * nx)) ^ 2 + (d * (vy - c * ny)) ^ 2)
    with (d * d * ((vx * vx + vy * vy) - 2 * c * (vx * nx + vy * ny)
                   + c * c * (nx * nx + ny * ny))) by ring.
  rewrite Hv, Hvn, Hn. ring.
Qed.

(** Along the tangent line the squared distance from either centre is the
    squared radius plus the squared distance travelled from the point of
    contact. *)
Lemma tangent_line_first (t : R) :
  sq_distance x1 y1 (point_at seg t) = r1 ^ 2 + t ^ 2 * sq_length seg.
Proof.
  pose proof (normal_unit x1 y1 r1 x2 y2 r2 apart sign1 sign2
                sign2_unit feasible) as Hn.
  pose proof chord_dot_normal as H0.
  unfold sq_distance, point_at, at_param, sq_length. cbn [fst snd].
  replace (seg_x1 seg + t * (seg_x2 seg - seg_x1 seg) - x1)
    with (r1 * nx + t * (seg_x2 seg - seg_x1 seg))
    by (unfold tangent; cbn [seg_x1 seg_x2]; ring).
  replace (seg_y1 seg + t * (seg_y2 seg - seg_y1 seg) - y1)
    with (r1 * ny + t * (seg_y2 seg - seg_y1 seg))
    by (unfold tangent; cbn [seg_y1 seg_y2]; ring).
  replace ((r1 * nx + t * (seg_x2 seg - seg_x1 seg)) ^ 2
           + (r1 * ny + t * (seg_y2 seg - seg_y1 seg)) ^ 2)
    with (r1 ^ 2 * (nx * nx + ny * ny)
          + 2 * r1 * t * ((seg_x2 seg - seg_x1 seg) * nx
                          + (seg_y2 seg - seg_y1 seg) * ny)
          + t ^ 2 * ((seg_x2 seg - seg_x1 seg) ^ 2
                     + (seg_y2 seg - seg_y1 seg) ^ 2)) by ring.
  rewrite Hn, H0. ring.
Qed.

Lemma tangent_line_second (t : R) :
  sq_distance x2 y2 (point_at seg t)
  = r2 ^ 2 + (t - 1) ^ 2 * sq_length seg.
Proof.
  pose proof (normal_unit x1 y1 r1 x2 y2 r2 apart sign1 sign2
                sign2_unit feasible) as Hn.
  pose proof chord_dot_normal as H0.
  unfold sq_distance, point_at, at_param, sq_length. cbn [fst snd].
  replace (seg_x1 seg + t * (seg_x2 seg - seg_x1 seg) - x2)
    with (sign1 * r2 * nx + (t - 1) * (seg_x2 seg - seg_x1 seg))
    by (unfold tangent; cbn [seg_x1 seg_x2]; ring).
  replace (seg_y1 seg + t * (seg_y2 seg - seg_y1 seg) - y2)
    with (sign1 * r2 * ny + (t - 1) * (seg_y2 seg - seg_y1 seg))
    by (unfold tangent; cbn [seg_y1 seg_y2]; ring).
  replace ((sign1 * r2 * nx + (t - 1) * (seg_x2 seg - seg_x1 seg)) ^ 2
           + (sign1 * r2 * ny + (t - 1) * (seg_y2 seg - seg_y1 seg)) ^ 2)
    with ((sign1 * sign1) * r2 ^ 2 * (nx * nx + ny * ny)
          + 2 * sign1 * r2 * (t - 1)
            * ((seg_x2 seg - seg_x1 seg) * nx
               + (seg_y2 seg - seg_y1 seg) * ny)
          + (t - 1) ^ 2 * ((seg_x2 seg - seg_x1 seg) ^ 2
                           + (seg_y2 seg - seg_y1 seg) ^ 2)) by ring.
  rewrite Hn, H0, sign1_unit. ring.
Qed.

End TangentAlgebra.

Lemma in_family (x1 y1 r1 x2 y2 r2 sign1 : R) (s : segment) :
  In s (family x1 y1 r1 x2 y2 r2 sign1) ->
  cosine x1 y1 r1 x2 y2 r2 sign1 * cosine x1 y1 r1 x2 y2 r2 sign1 <= 1
  /\ (s = tangent x1 y1 r1 x2 y2 r2 sign1 1
      \/ s = tangent x1 y1 r1 x2 y2 r2 sign1 (-1)).
Proof.
  unfold family. destruct (Py.gt _ 1) eqn:E; [intros [] | ].
  apply gt_false in E. intros [<- | [<- | []]]; auto.
Qed.

(** Every segment returned is one of the four closed forms, of a feasible
    family. *)
Lemma in_get_tangents (x1 y1 r1 x2 y2 r2 : R) (res : list segment)
  (s : segment) :
  get_tangents x1 y1 r1 x2 y2 r2 = Ok res -> In s res ->
  (r1 - r2) ^ 2 < d_sq x1 y1 x2 y2
  /\ exists sign1 sign2,
       sign1 * sign1 = 1 /\ sign2 * sign2 = 1
       /\ cosine x1 y1 r1 x2 y2 r2 sign1 * cosine x1 y1 r1 x2 y2 r2 sign1 <= 1
       /\ s = tangent x1 y1 r1 x2 y2 r2 sign1 sign2.
Proof.
  intros E Hin.
  destruct (Rle_dec (d_sq x1 y1 x2 y2) ((r1 - r2) ^ 2)) as [Hle | Hgt].
  - rewrite get_tangents_nested_here in E by exact Hle.
    injection E as <-. destruct Hin.
  - apply Rnot_le_lt in Hgt. split; [exact Hgt | ].
    rewrite get_tangents_apart in E by exact Hgt. injection E as <-.
    apply in_app_or in Hin as [Hin | Hin];
      apply in_family in Hin as [Hc [-> | ->]].
    + exists 1, 1. repeat split; (lra || assumption).
    + exists 1, (-1). repeat split; (lra || assumption).
    + exists (-1), 1. repeat split; (lra || assumption).
    + exists (-1), (-1). repeat split; (lra || assumption).
Qed.

Lemma get_tangents_total (x1 y1 r1 x2 y2 r2 : R) :
  exists res, get_tangents x1 y1 r1 x2 y2 r2 = Ok res.
Proof.
  destruct (Rle_dec (d_sq x1 y1 x2 y2) ((r1 - r2) ^ 2)) as [Hle | Hgt].
  - exists []. now apply get_tangents_nested_here.
  - apply Rnot_le_lt in Hgt. eexists. now apply get_tangents_apart.
Qed.

Lemma proper_sq_length (s : segment) : proper s <-> 0 < sq_length s.
Proof.
  unfold proper, sq_length. split.
  - apply sum_sqr_pos.
  - intros Hpos E. injection E as Ex Ey. rewrite Ex, Ey in Hpos.
    replace ((seg_x2 s - seg_x2 s) ^ 2 + (seg_y2 s - seg_y2 s) ^ 2)
      with 0 in Hpos by ring.
    lra.
Qed.

(** The family of [sign1 = -1] is feasible exactly when the centres are at
    least [r1 + r2] apart. *)
Lemma cosine_minus_feasible (x1 y1 r1 x2 y2 r2 : R) :
  (r1 - r2) ^ 2 < d_sq x1 y1 x2 y2 ->
  (cosine x1 y1 r1 x2 y2 r2 (-1) * cosine x1 y1 r1 x2 y2 r2 (-1) <= 1
   <-> (r1 + r2) ^ 2 <= d_sq x1 y1 x2 y2).
Proof.
  intros Hd.
  pose proof (dist_pos x1 y1 r1 x2 y2 r2 Hd) as Hp.
  pose proof (dist_sqr x1 y1 x2 y2) as Hs.
  pose proof (radii_by_cosine x1 y1 r1 x2 y2 r2 Hd (-1)) as Hc.
  replace (r1 + r2) with (r1 - -1 * r2) by ring.
  rewrite Hc, <- Hs.
  set (c := cosine x1 y1 r1 x2 y2 r2 (-1)).
  set (d := dist x1 y1 x2 y2) in *.
  replace ((d * c) ^ 2) with ((c * c) * (d * d)) by ring.
  assert (Hdd : 0 < d * d) by nra.
  split; intros H; nra.
Qed.

(** ** Further results on get_tangents *)

(** X1: Every segment [get_tangents] returns is tangent to both circles: at its
    first endpoint it is perpendicular to the radius of the first circle,
    at its second endpoint to the radius of the second. *)
Theorem get_tangents_bitangent (x1 y1 r1 x2 y2 r2 : R) :
  exists res,
    get_tangents x1 y1 r1 x2 y2 r2 = Ok res
    /\ Forall (bitangent x1 y1 x2 y2) res.
Proof.
  destruct (get_tangents_total x1 y1 r1 x2 y2 r2) as (res & E).
  exists res. split; [exact E | ].
  apply Forall_forall. intros s Hin.
  destruct (in_get_tangents _ _ _ _ _ _ _ _ E Hin)
    as (Hd & s1 & s2 & _ & H2 & Hc & ->).
  now apply tangent_bitangent.
Qed.

(** X2: No point of the line through a returned segment lies strictly inside
    either circle: the squared distance from each centre is at least the
    squared radius, with equality at the segment's own endpoint. *)
Theorem get_tangents_stay_outside (x1 y1 r1 x2 y2 r2 : R) :
  exists res,
    get_tangents x1 y1 r1 x2 y2 r2 = Ok res
    /\ forall s, In s res ->
         (forall t,
             r1 ^ 2 <= sq_distance x1 y1 (point_at s t)
             /\ r2 ^ 2 <= sq_distance x2 y2 (point_at s t))
         /\ sq_distance x1 y1 (point_at s 0) = r1 ^ 2
         /\ sq_distance x2 y2 (point_at s 1) = r2 ^ 2.
Proof.
  destruct (get_tangents_total x1 y1 r1 x2 y2 r2) as (res & E).
  exists res. split; [exact E | ].
  intros s Hin.
  destruct (in_get_tangents _ _ _ _ _ _ _ _ E Hin)
    as (Hd & s1 & s2 & H1 & H2 & Hc & ->).
  pose proof (tangent_line_first x1 y1 r1 x2 y2 r2 Hd s1 s2 H2 Hc) as F.
  pose proof (tangent_line_second x1 y1 r1 x2 y2 r2 Hd s1 s2 H1 H2 Hc) as S.
  assert (Hlen : 0 <= sq_length (tangent x1 y1 r1 x2 y2 r2 s1 s2)).
  { unfold sq_length.
    pose proof (pow2_ge_0 (seg_x2 (tangent x1 y1 r1 x2 y2 r2 s1 s2)
                           - seg_x1 (tangent x1 y1 r1 x2 y2 r2 s1 s2))).
    pose proof (pow2_ge_0 (seg_y2 (tangent x1 y1 r1 x2 y2 r2 s1 s2)
                           - seg_y1 (tangent x1 y1 r1 x2 y2 r2 s1 s2))).
    lra. }
  split; [ | split].
  - intros t. rewrite F, S.
    pose proof (pow2_ge_0 t). pose proof (pow2_ge_0 (t - 1)).
    split; nra.
  - rewrite F. ring.
  - rewrite S. ring.
Qed.

(** X3: For circles that are apart, four tangents are returned exactly when
    the centres are at least [r1 + r2] apart, and two otherwise. *)
Theorem get_tangents_four_iff (x1 y1 r1 x2 y2 r2 : R) :
  (r1 - r2) ^ 2 < d_sq x1 y1 x2 y2 ->
  exists res,
    get_tangents x1 y1 r1 x2 y2 r2 = Ok res
    /\ (List.length res = 4%nat <-> (r1 + r2) ^ 2 <= d_sq x1 y1 x2 y2)
    /\ (List.length res = 2%nat <-> d_sq x1 y1 x2 y2 < (r1 + r2) ^ 2).
Proof.
  intros Hd. eexists. split; [now apply get_tangents_apart | ].
  pose proof (cosine_minus_feasible x1 y1 r1 x2 y2 r2 Hd) as Hiff.
  rewrite family_feasible
    by (apply Rlt_le, cosine_plus_small; exact Hd).
  unfold family at 1 2.
  destruct (Py.gt _ 1) eqn:E.
  - apply gt_true in E. cbn [app List.length].
    split; split; intros H; try discriminate; try reflexivity.
    + apply Hiff in H. lra.
    + apply Rnot_le_lt. intros Hle. apply Hiff in Hle. lra.
  - apply gt_false in E. cbn [app List.length].
    split; split; intros H; try discriminate; try reflexivity.
    + now apply Hiff.
    + apply Hiff in E. lra.
Qed.

(** Unit circles with centres 5 apart: four tangents. *)
Lemma get_tangents_four_iff_witness :
  exists res,
    get_tangents 0 0 1 5 0 1 = Ok res
    /\ (List.length res = 4%nat <-> (1 + 1) ^ 2 <= d_sq 0 0 5 0)
    /\ (List.length res = 2%nat <-> d_sq 0 0 5 0 < (1 + 1) ^ 2).
Proof.
  apply (get_tangents_four_iff 0 0 1 5 0 1). unfold d_sq. lra.
Defined.

Lemma coincident_or_proper (ray : segment) :
  (seg_x1 ray, seg_y1 ray) = (seg_x2 ray, seg_y2 ray) \/ proper ray.
Proof.
  unfold proper.
  destruct (Req_dec_T (seg_x1 ray) (seg_x2 ray)) as [Ex | Nx].
  - destruct (Req_dec_T (seg_y1 ray) (seg_y2 ray)) as [Ey | Ny].
    + left. now rewrite Ex, Ey.
    + right. intros [= _ E]. contradiction.
  - right. intros [= E _]. contradiction.
Qed.

Lemma unit_sign (s : R) : s * s = 1 -> s = 1 \/ s = -1.
Proof.
  intros H.
  assert (F : (s - 1) * (s + 1) = 0) by (ring_simplify; lra).
  apply Rmult_integral in F as [F | F]; [left | right]; lra.
Qed.

Lemma get_first_intersection_degenerate
  (c : circle) (cs : list circle) (ray : segment) :
  ~ proper ray ->
  get_first_intersection (c :: cs) ray = Raise ZeroDivisionError.
Proof.
  intros Hdeg.
  assert (HA : coef_A (seg_x1 ray) (seg_y1 ray) (seg_x2 ray) (seg_y2 ray) = 0).
  { apply coef_A_zero.
    destruct (Req_dec_T (seg_x1 ray) (seg_x2 ray)) as [Ex | Nx].
    - destruct (Req_dec_T (seg_y1 ray) (seg_y2 ray)) as [Ey | Ny].
      + now rewrite Ex, Ey.
      + elim Hdeg. intros [= _ E]. contradiction.
    - elim Hdeg. intros [= E _]. contradiction. }
  unfold get_first_intersection. cbn [for_each].
  now rewrite circle_line_intersection_degenerate.
Qed.

Lemma get_first_intersection_total (circles : list circle) (ray : segment) :
  proper ray -> exists r, get_first_intersection circles ray = Ok r.
Proof.
  intros Hray. eexists. now apply get_first_intersection_closed.
Qed.

(** X4: The squared length of each tangent is the squared distance of the
    centres less [(r1 - r2)^2] for the first two segments returned and less
    [(r1 + r2)^2] for the others. *)
Theorem get_tangents_sq_length (x1 y1 r1 x2 y2 r2 : R) :
  (r1 - r2) ^ 2 < d_sq x1 y1 x2 y2 ->
  exists e1 e2 rest,
    get_tangents x1 y1 r1 x2 y2 r2 = Ok (e1 :: e2 :: rest)
    /\ sq_length e1 = d_sq x1 y1 x2 y2 - (r1 - r2) ^ 2
    /\ sq_length e2 = d_sq x1 y1 x2 y2 - (r1 - r2) ^ 2
    /\ Forall (fun s => sq_length s = d_sq x1 y1 x2 y2 - (r1 + r2) ^ 2) rest.
Proof.
  intros Hd.
  pose proof (cosine_plus_small x1 y1 r1 x2 y2 r2 Hd) as Hc1.
  rewrite get_tangents_apart by exact Hd.
  rewrite family_feasible by lra. cbn [app].
  do 3 eexists. split; [reflexivity | ].
  split; [ | split].
  - rewrite tangent_sq_length by (assumption || lra). f_equal. f_equal. ring.
  - rewrite tangent_sq_length by (assumption || lra). f_equal. f_equal. ring.
  - apply Forall_forall. intros s Hin.
    apply in_family in Hin as [Hc [-> | ->]];
      rewrite tangent_sq_length by (assumption || lra);
      f_equal; f_equal; ring.
Qed.

(** Circles of radius 1 and 2 with centres 5 apart. *)
Lemma get_tangents_sq_length_witness :
  exists e1 e2 rest,
    get_tangents 0 0 1 5 0 2 = Ok (e1 :: e2 :: rest)
    /\ sq_length e1 = d_sq 0 0 5 0 - (1 - 2) ^ 2
    /\ sq_length e2 = d_sq 0 0 5 0 - (1 - 2) ^ 2
    /\ Forall (fun s => sq_length s = d_sq 0 0 5 0 - (1 + 2) ^ 2) rest.
Proof.
  apply (get_tangents_sq_length 0 0 1 5 0 2). unfold d_sq. lra.
Defined.

(** A tangent returned is degenerate only when the circles touch from
    outside. *)
Lemma member_proper (x1 y1 r1 x2 y2 r2 : R) (res : list segment)
  (s : segment) :
  d_sq x1 y1 x2 y2 <> (r1 + r2) ^ 2 ->
  get_tangents x1 y1 r1 x2 y2 r2 = Ok res -> In s res -> proper s.
Proof.
  intros Hne E Hin.
  destruct (in_get_tangents _ _ _ _ _ _ _ _ E Hin)
    as (Hd & s1 & s2 & H1 & H2 & Hc & ->).
  apply proper_sq_length.
  rewrite tangent_sq_length by assumption.
  destruct (unit_sign s1 H1) as [-> | ->].
  - replace (r1 - 1 * r2) with (r1 - r2) by ring. lra.
  - apply cosine_minus_feasible in Hc; [ | exact Hd].
    replace (r1 - -1 * r2) with (r1 + r2) by ring. lra.
Qed.



(** Touching from outside: the four tangents, of which the last two are
    degenerate. *)
Lemma touching_shape (x1 y1 r1 x2 y2 r2 : R) :
  (r1 - r2) ^ 2 < d_sq x1 y1 x2 y2 ->
  d_sq x1 y1 x2 y2 = (r1 + r2) ^ 2 ->
  get_tangents x1 y1 r1 x2 y2 r2
  = Ok [tangent x1 y1 r1 x2 y2 r2 1 1; tangent x1 y1 r1 x2 y2 r2 1 (-1);
        tangent x1 y1 r1 x2 y2 r2 (-1) 1; tangent x1 y1 r1 x2 y2 r2 (-1) (-1)]
  /\ (forall s2, s2 * s2 = 1 -> proper (tangent x1 y1 r1 x2 y2 r2 1 s2))
  /\ (forall s2, s2 * s2 = 1 ->
        ~ proper (tangent x1 y1 r1 x2 y2 r2 (-1) s2)).
Proof.
  intros Hd Ht.
  pose proof (cosine_plus_small x1 y1 r1 x2 y2 r2 Hd) as Hc1.
  assert (Hc2 : cosine x1 y1 r1 x2 y2 r2 (-1)
                * cosine x1 y1 r1 x2 y2 r2 (-1) <= 1)
    by (apply cosine_minus_feasible; [exact Hd | lra]).
  split; [now apply get_tangents_four | split].
  - intros s2 H2. apply proper_sq_length.
    rewrite tangent_sq_length by (assumption || lra).
    replace (r1 - 1 * r2) with (r1 - r2) by ring. lra.
  - intros s2 H2 Hp. apply proper_sq_length in Hp.
    rewrite tangent_sq_length in Hp by (assumption || lra).
    replace (r1 - -1 * r2) with (r1 + r2) in Hp by ring. lra.
Qed.



(** Exchanging the two circles. *)
Section TangentSwap.

Variables x1 y1 r1 x2 y2 r2 : R.

Lemma d_sq_sym : d_sq x2 y2 x1 y1 = d_sq x1 y1 x2 y2.
Proof. unfold d_sq. ring. Qed.

Lemma dist_sym : dist x2 y2 x1 y1 = dist x1 y1 x2 y2.
Proof. unfold dist. now rewrite d_sq_sym. Qed.

Lemma dir_x_sym : dir_x x2 y2 x1 y1 = - dir_x x1 y1 x2 y2.
Proof. unfold dir_x. rewrite dist_sym. unfold Rdiv. ring. Qed.

Lemma dir_y_sym : dir_y x2 y2 x1 y1 = - dir_y x1 y1 x2 y2.
Proof. unfold dir_y. rewrite dist_sym. unfold Rdiv. ring. Qed.

Lemma cosine_swap_plus :
  cosine x2 y2 r2 x1 y1 r1 1 = - cosine x1 y1 r1 x2 y2 r2 1.
Proof. unfold cosine. rewrite dist_sym. unfold Rdiv. ring. Qed.

Lemma cosine_swap_minus :
  cosine x2 y2 r2 x1 y1 r1 (-1) = cosine x1 y1 r1 x2 y2 r2 (-1).
Proof. unfold cosine. rewrite dist_sym. unfold Rdiv. ring. Qed.

Lemma sine_swap_plus :
  sine x2 y2 r2 x1 y1 r1 1 = sine x1 y1 r1 x2 y2 r2 1.
Proof.
  unfold sine. rewrite cosine_swap_plus. do 2 f_equal. ring.
Qed.

Lemma sine_swap_minus :
  sine x2 y2 r2 x1 y1 r1 (-1) = sine x1 y1 r1 x2 y2 r2 (-1).
Proof. unfold sine. now rewrite cosine_swap_minus. Qed.

Lemma tangent_swap_plus (sign2 : R) :
  tangent x2 y2 r2 x1 y1 r1 1 sign2
  = reversed (tangent x1 y1 r1 x2 y2 r2 1 (- sign2)).
Proof.
  unfold tangent, reversed. cbn [seg_x1 seg_y1 seg_x2 seg_y2].
  rewrite dir_x_sym, dir_y_sym, cosine_swap_plus, sine_swap_plus.
  f_equal; ring.
Qed.

Lemma tangent_swap_minus (sign2 : R) :
  tangent x2 y2 r2 x1 y1 r1 (-1) sign2
  = reversed (tangent x1 y1 r1 x2 y2 r2 (-1) sign2).
Proof.
  unfold tangent, reversed. cbn [seg_x1 seg_y1 seg_x2 seg_y2].
  rewrite dir_x_sym, dir_y_sym, cosine_swap_minus, sine_swap_minus.
  f_equal; ring.
Qed.

Lemma family_swap_minus :
  family x2 y2 r2 x1 y1 r1 (-1)
  = map reversed (family x1 y1 r1 x2 y2 r2 (-1)).
Proof.
  unfold family. rewrite cosine_swap_minus.
  destruct (Py.gt _ 1); [reflexivity | ].
  cbn [map]. now rewrite !tangent_swap_minus.
Qed.

End TangentSwap.

(** X7: Exchanging the two circles gives the same tangents, each run the other
    way, with the first two exchanged. *)
Theorem get_tangents_swap (x1 y1 r1 x2 y2 r2 : R) :
  exists res,
    get_tangents x1 y1 r1 x2 y2 r2 = Ok res
    /\ get_tangents x2 y2 r2 x1 y1 r1
       = Ok (map reversed (exchange_first_two res)).
Proof.
  destruct (Rle_dec (d_sq x1 y1 x2 y2) ((r1 - r2) ^ 2)) as [Hle | Hgt].
  - exists []. split; [now apply get_tangents_nested_here | ].
    apply get_tangents_nested_here. rewrite d_sq_sym.
    replace ((r2 - r1) ^ 2) with ((r1 - r2) ^ 2) by ring. exact Hle.
  - apply Rnot_le_lt in Hgt.
    assert (Hgt' : (r2 - r1) ^ 2 < d_sq x2 y2 x1 y1).
    { rewrite d_sq_sym.
      replace ((r2 - r1) ^ 2) with ((r1 - r2) ^ 2) by ring. exact Hgt. }
    eexists. split; [now apply get_tangents_apart | ].
    rewrite get_tangents_apart by exact Hgt'.
    rewrite family_swap_minus.
    rewrite (family_feasible x2 y2 r2 x1 y1 r1 1)
      by (apply Rlt_le, cosine_plus_small; assumption).
    rewrite (family_feasible x1 y1 r1 x2 y2 r2 1)
      by (apply Rlt_le, cosine_plus_small; assumption).
    cbn [app exchange_first_two map].
    rewrite (tangent_swap_plus x1 y1 r1 x2 y2 r2 1).
    rewrite (tangent_swap_plus x1 y1 r1 x2 y2 r2 (-1)).
    replace (- (1)) with (-1) by ring. replace (- -1) with 1 by ring.
    reflexivity.
Qed.

(** ** Further results on circle_line_intersection *)

Lemma in_bounds_spec (lb ub : bool) (t : R) :
  in_bounds lb ub t = true
  <-> (lb = true -> 0 <= t) /\ (ub = true -> t <= 1).
Proof.
  unfold in_bounds. rewrite andb_true_iff, !orb_true_iff.
  rewrite ge_true, le_true. split.
  - intros [[Hl | Hl] [Hu | Hu]]; split; intros E; subst;
      try discriminate; assumption.
  - intros [Hl Hu]. destruct lb, ub; cbn [negb]; split; auto.
Qed.

Lemma roots_sorted (cx cy cr x1 y1 x2 y2 : R) :
  0 < coef_A x1 y1 x2 y2 ->
  StronglySorted Rlt (roots cx cy cr x1 y1 x2 y2).
Proof.
  intros HA. unfold roots.
  destruct (Py.lt _ 0) eqn:E; [constructor | ].
  apply lt_false in E.
  destruct (Req_dec_T _ 0) as [Z | N].
  - repeat constructor.
  - repeat constructor.
    assert (Hs : 0 < sqrt (det cx cy cr x1 y1 x2 y2))
      by (apply sqrt_lt_R0; lra).
    unfold root. apply Rmult_lt_compat_r.
    + apply Rinv_0_lt_compat. lra.
    + lra.
Qed.

Lemma filter_sorted {X : Type} (lt : X -> X -> Prop) (f : X -> bool)
  (l : list X) :
  StronglySorted lt l -> StronglySorted lt (filter f l).
Proof.
  induction 1 as [ | x l Hs IH Hall]; [constructor | ].
  cbn [filter]. destruct (f x); [ | exact IH].
  constructor; [exact IH | ].
  apply Forall_forall. intros y Hy. apply filter_In in Hy as [Hy _].
  revert y Hy. now apply Forall_forall.
Qed.

Lemma filter_length_le {X : Type} (f : X -> bool) (l : list X) :
  (List.length (filter f l) <= List.length l)%nat.
Proof.
  induction l as [ | x l IH]; [apply le_n | ].
  cbn [filter]. destruct (f x); cbn [List.length].
  - now apply le_n_S.
  - now apply le_S.
Qed.

Lemma roots_length (cx cy cr x1 y1 x2 y2 : R) :
  (List.length (roots cx cy cr x1 y1 x2 y2) <= 2)%nat.
Proof.
  unfold roots. destruct (Py.lt _ 0); [cbn; auto | ].
  destruct (Req_dec_T _ 0); cbn; auto.
Qed.

(** X8: On a segment with distinct endpoints the call returns exactly the
    points of the segment's line that lie on the circle and whose parameter
    passes the bounds that are switched on: [t >= 0] under [lb], [t <= 1]
    under [ub]. *)
Theorem circle_line_intersection_points
  (cx cy cr x1 y1 x2 y2 : R) (lb ub : bool) :
  (x1, y1) <> (x2, y2) ->
  exists ps,
    circle_line_intersection cx cy cr x1 y1 x2 y2 lb ub = Ok ps
    /\ forall p,
         In p ps
         <-> exists t,
               p = at_param x1 y1 x2 y2 t
               /\ on_circle cx cy cr p
               /\ (lb = true -> 0 <= t)
               /\ (ub = true -> t <= 1).
Proof.
  intros Hne. pose proof (coef_A_pos _ _ _ _ Hne) as HA.
  assert (HA0 : coef_A x1 y1 x2 y2 <> 0) by lra.
  eexists. split; [now apply circle_line_intersection_closed | ].
  intros p. rewrite in_map_iff. split.
  - intros (t & <- & Ht). apply filter_In in Ht as [Hr Hb].
    exists t. split; [reflexivity | split].
    + apply on_circle_param, roots_solve; assumption.
    + now apply in_bounds_spec.
  - intros (t & -> & Hon & Hb). exists t. split; [reflexivity | ].
    apply filter_In. split.
    + apply solution_in_roots; [exact HA0 | now apply on_circle_param].
    + now apply in_bounds_spec.
Qed.

(** The unit circle and the segment from (-2,0) to (2,0). *)
Lemma circle_line_intersection_points_witness :
  exists ps,
    circle_line_intersection 0 0 1 (-2) 0 2 0 true true = Ok ps
    /\ forall p,
         In p ps
         <-> exists t,
               p = at_param (-2) 0 2 0 t
               /\ on_circle 0 0 1 p
               /\ (true = true -> 0 <= t)
               /\ (true = true -> t <= 1).
Proof.
  apply (circle_line_intersection_points 0 0 1 (-2) 0 2 0 true true).
  intros E. apply (f_equal fst) in E. cbn in E. lra.
Defined.

(** X9: On a segment with distinct endpoints the points are returned in the
    order of strictly increasing parameter, and there are at most two. *)
Theorem circle_line_intersection_ordered
  (cx cy cr x1 y1 x2 y2 : R) (lb ub : bool) :
  (x1, y1) <> (x2, y2) ->
  exists ts,
    circle_line_intersection cx cy cr x1 y1 x2 y2 lb ub
    = Ok (map (at_param x1 y1 x2 y2) ts)
    /\ StronglySorted Rlt ts
    /\ (List.length ts <= 2)%nat.
Proof.
  intros Hne. pose proof (coef_A_pos _ _ _ _ Hne) as HA.
  assert (HA0 : coef_A x1 y1 x2 y2 <> 0) by lra.
  eexists. split; [now apply circle_line_intersection_closed | ].
  split.
  - now apply filter_sorted, roots_sorted.
  - eapply Nat.le_trans; [apply filter_length_le | apply roots_length].
Qed.

(** The unit circle and the segment from (-2,0) to (2,0). *)
Lemma circle_line_intersection_ordered_witness :
  exists ts,
    circle_line_intersection 0 0 1 (-2) 0 2 0 true true
    = Ok (map (at_param (-2) 0 2 0) ts)
    /\ StronglySorted Rlt ts
    /\ (List.length ts <= 2)%nat.
Proof.
  apply (circle_line_intersection_ordered 0 0 1 (-2) 0 2 0 true true).
  intros E. apply (f_equal fst) in E. cbn in E. lra.
Defined.

(** X10: A line through the centre of a circle of radius not 0, taken without
    bounds, meets it in two points of the circle that are symmetric about
    the centre. *)
Theorem circle_line_intersection_through_centre
  (cr x1 y1 x2 y2 t0 : R) :
  (x1, y1) <> (x2, y2) ->
  cr <> 0 ->
  exists p q,
    circle_line_intersection
      (fst (at_param x1 y1 x2 y2 t0)) (snd (at_param x1 y1 x2 y2 t0)) cr
      x1 y1 x2 y2 false false = Ok [p; q]
    /\ on_circle (fst (at_param x1 y1 x2 y2 t0))
         (snd (at_param x1 y1 x2 y2 t0)) cr p
    /\ on_circle (fst (at_param x1 y1 x2 y2 t0))
         (snd (at_param x1 y1 x2 y2 t0)) cr q
    /\ fst p + fst q = 2 * fst (at_param x1 y1 x2 y2 t0)
    /\ snd p + snd q = 2 * snd (at_param x1 y1 x2 y2 t0)
    /\ p <> q.
Proof.
  intros Hne Hr. pose proof (coef_A_pos _ _ _ _ Hne) as HA.
  assert (HA0 : coef_A x1 y1 x2 y2 <> 0) by lra.
  cbn [at_param fst snd].
  set (cx := x1 + t0 * (x2 - x1)). set (cy := y1 + t0 * (y2 - y1)).
  assert (HB : coef_B cx cy x1 y1 x2 y2 = - (2 * t0 * coef_A x1 y1 x2 y2))
    by (unfold coef_B, coef_A, cx, cy; ring).
  assert (HD : det cx cy cr x1 y1 x2 y2 = 4 * coef_A x1 y1 x2 y2 * cr ^ 2).
  { unfold det. rewrite HB. unfold coef_C, coef_A, cx, cy. ring. }
  assert (Hpos : 0 < det cx cy cr x1 y1 x2 y2).
  { rewrite HD. pose proof (sqr_pos cr Hr). nra. }
  assert (Hs : 0 < sqrt (det cx cy cr x1 y1 x2 y2))
    by now apply sqrt_lt_R0.
  assert (Hroots : roots cx cy cr x1 y1 x2 y2
                   = [root cx cy cr x1 y1 x2 y2 (-1);
                      root cx cy cr x1 y1 x2 y2 1]).
  { unfold roots.
    destruct (Py.lt _ 0) eqn:E; [apply lt_true in E; lra | ].
    destruct (Req_dec_T _ 0) as [Z | N]; [lra | reflexivity]. }
  assert (Hsum : root cx cy cr x1 y1 x2 y2 (-1) + root cx cy cr x1 y1 x2 y2 1
                 = 2 * t0).
  { unfold root. rewrite HB. field. exact HA0. }
  assert (Hlt : root cx cy cr x1 y1 x2 y2 (-1) < root cx cy cr x1 y1 x2 y2 1).
  { unfold root. apply Rmult_lt_compat_r; [ | lra].
    apply Rinv_0_lt_compat. lra. }
  exists (at_param x1 y1 x2 y2 (root cx cy cr x1 y1 x2 y2 (-1))),
    (at_param x1 y1 x2 y2 (root cx cy cr x1 y1 x2 y2 1)).
  split.
  { rewrite circle_line_intersection_closed by exact HA0.
    rewrite Hroots. reflexivity. }
  split; [apply on_circle_param, root_solves; (exact HA0 || lra) | ].
  split; [apply on_circle_param, root_solves; (exact HA0 || lra) | ].
  unfold at_param. cbn [fst snd].
  split; [ | split].
  - replace (x1 + root cx cy cr x1 y1 x2 y2 (-1) * (x2 - x1)
             + (x1 + root cx cy cr x1 y1 x2 y2 1 * (x2 - x1)))
      with (2 * x1 + (root cx cy cr x1 y1 x2 y2 (-1)
                      + root cx cy cr x1 y1 x2 y2 1) * (x2 - x1)) by ring.
    rewrite Hsum. unfold cx. ring.
  - replace (y1 + root cx cy cr x1 y1 x2 y2 (-1) * (y2 - y1)
             + (y1 + root cx cy cr x1 y1 x2 y2 1 * (y2 - y1)))
      with (2 * y1 + (root cx cy cr x1 y1 x2 y2 (-1)
                      + root cx cy cr x1 y1 x2 y2 1) * (y2 - y1)) by ring.
    rewrite Hsum. unfold cy. ring.
  - intros E. injection E as Ex Ey.
    assert (Fx : (root cx cy cr x1 y1 x2 y2 1
                  - root cx cy cr x1 y1 x2 y2 (-1)) * (x2 - x1) = 0) by lra.
    assert (Fy : (root cx cy cr x1 y1 x2 y2 1
                  - root cx cy cr x1 y1 x2 y2 (-1)) * (y2 - y1) = 0) by lra.
    apply Rmult_integral in Fx as [Fx | Fx]; [lra | ].
    apply Rmult_integral in Fy as [Fy | Fy]; [lra | ].
    apply Hne. f_equal; lra.
Qed.

(** The line through (0,0) and (1,0) and the circle of radius 2 about its
    point at parameter 3. *)
Lemma circle_line_intersection_through_centre_witness :
  exists p q,
    circle_line_intersection
      (fst (at_param 0 0 1 0 3)) (snd (at_param 0 0 1 0 3)) 2
      0 0 1 0 false false = Ok [p; q]
    /\ on_circle (fst (at_param 0 0 1 0 3)) (snd (at_param 0 0 1 0 3)) 2 p
    /\ on_circle (fst (at_param 0 0 1 0 3)) (snd (at_param 0 0 1 0 3)) 2 q
    /\ fst p + fst q = 2 * fst (at_param 0 0 1 0 3)
    /\ snd p + snd q = 2 * snd (at_param 0 0 1 0 3)
    /\ p <> q.
Proof.
  apply (circle_line_intersection_through_centre 2 0 0 1 0 3).
  - intros E. apply (f_equal fst) in E. cbn in E. lra.
  - lra.
Defined.

(** ** Further results on get_first_intersection *)


Lemma fold_step_keeps (ray : segment) (l : list (point * circle))
  (x : point * circle) :
  (forall y, In y l ->
             x_distance ray (fst x) <= x_distance ray (fst y)) ->
  fold_left (fun f ic => closer ray (snd ic) f (fst ic)) l (Some x) = Some x.
Proof.
  induction l as [ | [i c] l IH]; intros H; [reflexivity | ].
  cbn [fold_left fst snd]. unfold closer at 2. destruct x as [p c0].
  assert (Hle : x_distance ray p <= x_distance ray i)
    by (apply (H (i, c)); now left).
  unfold x_distance in Hle.
  rewrite (proj2 (lt_false _ _) Hle).
  apply IH. intros y Hy. apply H. now right.
Qed.

Lemma candidates_app (ray : segment) (cs1 cs2 : list circle) :
  candidates ray (cs1 ++ cs2) = candidates ray cs1 ++ candidates ray cs2.
Proof. unfold candidates. apply flat_map_app. Qed.

Lemma candidates_clear (ray : segment) (cs : list circle) :
  (forall c, In c cs -> hits ray c = []) -> candidates ray cs = [].
Proof.
  induction cs as [ | c cs IH]; intros H; [reflexivity | ].
  unfold candidates. cbn [flat_map]. rewrite (H c) by now left.
  cbn [map app]. apply IH. intros c' Hc'. apply H. now right.
Qed.

(** X12: On a vertical ray every point has x-distance 0, so nothing is ever
    strictly closer: the result is the first point of the first obstacle in
    the list that the ray meets, however far along the ray it lies. *)
Theorem get_first_intersection_vertical
  (ray : segment) (before after : list circle) (c : circle)
  (p : point) (ps : list point) :
  proper ray ->
  seg_x1 ray = seg_x2 ray ->
  (forall c', In c' before ->
     circle_line_intersection (circle_x c') (circle_y c') (circle_r c')
       (seg_x1 ray) (seg_y1 ray) (seg_x2 ray) (seg_y2 ray) true false
     = Ok []) ->
  circle_line_intersection (circle_x c) (circle_y c) (circle_r c)
    (seg_x1 ray) (seg_y1 ray) (seg_x2 ray) (seg_y2 ray) true false
  = Ok (p :: ps) ->
  get_first_intersection (before ++ c :: after) ray = Ok (Some (p, c)).
Proof.
  intros Hray Hvert Hbefore Hc.
  rewrite get_first_intersection_closed by exact Hray.
  rewrite candidates_app, candidates_clear.
  2:{ intros c' Hc'. specialize (Hbefore c' Hc').
      rewrite intersections_of_ray in Hbefore by exact Hray.
      now injection Hbefore. }
  rewrite intersections_of_ray in Hc by exact Hray. injection Hc as Hc.
  assert (Hall : candidates ray (c :: after)
                 = (p, c) :: (map (fun i => (i, c)) ps
                              ++ candidates ray after)).
  { unfold candidates. cbn [flat_map]. now rewrite Hc. }
  assert (Hzero : forall y,
             In y (candidates ray (c :: after)) ->
             x_distance ray (fst y) = 0).
  { intros [q c'] Hin. cbn [fst].
    apply candidates_meet in Hin as [_ (t & _ & -> & _)]; [ | exact Hray].
    unfold x_distance, at_param. cbn [fst]. rewrite <- Hvert.
    replace (seg_x1 ray + t * (seg_x1 ray - seg_x1 ray) - seg_x1 ray)
      with 0 by ring.
    apply Rabs_R0. }
  rewrite Hall in Hzero |- *.
  cbn [app fold_left fst snd closer].
  f_equal. apply fold_step_keeps.
  intros y Hy.
  rewrite (Hzero (p, c)) by now left.
  rewrite (Hzero y) by now right.
  lra.
Qed.

(** The vertical ray from (0,0) through (0,1): the circle about (0,10) is
    listed first and wins over the nearer circle about (0,3). *)
Lemma get_first_intersection_vertical_witness :
  get_first_intersection ([] ++ Circle 0 10 1 :: [Circle 0 3 1])
    (Segment 0 0 0 1)
  = Ok (Some ((0, 9), Circle 0 10 1)).
Proof.
  assert (Hray : proper (Segment 0 0 0 1)).
  { unfold proper. cbn [seg_x1 seg_y1 seg_x2 seg_y2].
    intros E. apply (f_equal snd) in E. cbn in E. lra. }
  apply (get_first_intersection_vertical (Segment 0 0 0 1) []
           [Circle 0 3 1] (Circle 0 10 1) (0, 9) [(0, 11)] Hray).
  - reflexivity.
  - intros c' [].
  - rewrite intersections_of_ray by exact Hray. f_equal.
    rewrite (hits_two _ _ 2 Hray);
      cbn [seg_x1 seg_y1 seg_x2 seg_y2 circle_x circle_y circle_r];
      unfold det, coef_A, coef_B, coef_C; try lra.
    cbn [map]. unfold at_param.
    repeat match goal with
           | |- _ :: _ = _ :: _ => f_equal
           | |- (_, _) = (_, _) => f_equal
           end; lra.
Defined.





(** A ray meets a circle exactly when some point of the half-line lies in
    the circle's closed disc. *)
Lemma meets_iff_in_disc (ray : segment) (c : circle) :
  proper ray ->
  ((exists p, meets ray c p)
   <-> exists t, 0 <= t /\ in_disc c (point_at ray t)).
Proof.
  intros Hray.
  pose proof (coef_A_pos _ _ _ _ Hray) as HA.
  set (A := coef_A (seg_x1 ray) (seg_y1 ray) (seg_x2 ray) (seg_y2 ray)) in *.
  set (B := coef_B (circle_x c) (circle_y c)
              (seg_x1 ray) (seg_y1 ray) (seg_x2 ray) (seg_y2 ray)).
  set (C := coef_C (circle_x c) (circle_y c) (circle_r c)
              (seg_x1 ray) (seg_y1 ray)).
  set (D := det (circle_x c) (circle_y c) (circle_r c)
              (seg_x1 ray) (seg_y1 ray) (seg_x2 ray) (seg_y2 ray)).
  assert (Hdisc : forall t,
             in_disc c (point_at ray t) <-> A * t * t + B * t + C <= 0).
  { intros t. unfold in_disc, point_at, at_param, A, B, C,
      coef_A, coef_B, coef_C. cbn [fst snd].
    split; intros H; nra. }
  split.
  - intros (p & t & Ht & -> & Hon). exists t. split; [exact Ht | ].
    apply Hdisc. apply on_circle_param in Hon. fold A B C in Hon. lra.
  - intros (t & Ht & Hin). apply Hdisc in Hin.
    pose proof (completed_square (circle_x c) (circle_y c) (circle_r c)
                  (seg_x1 ray) (seg_y1 ray) (seg_x2 ray) (seg_y2 ray) t)
      as Hsq.
    fold A B C D in Hsq.
    pose proof (pow2_ge_0 (2 * A * t + B)) as Hge.
    assert (HD : 0 <= D) by nra.
    pose proof (sqrt_sqrt D HD) as Hq. pose proof (sqrt_pos D) as Hp.
    assert (Hs : 2 * A * t + B <= sqrt D).
    { destruct (Rle_dec (2 * A * t + B) (sqrt D)) as [L | N]; [exact L | ].
      apply Rnot_le_lt in N.
      assert ((sqrt D) * (sqrt D) < (2 * A * t + B) * (2 * A * t + B))
        by nra.
      nra. }
    set (t1 := root (circle_x c) (circle_y c) (circle_r c)
                 (seg_x1 ray) (seg_y1 ray) (seg_x2 ray) (seg_y2 ray) 1).
    assert (Ht1 : t <= t1).
    { unfold t1, root. fold A B D.
      apply Rmult_le_reg_r with (2 * A); [lra | ].
      replace ((- B + 1 * sqrt D) / (2 * A) * (2 * A))
        with (- B + sqrt D) by (field; lra).
      lra. }
    exists (at_param (seg_x1 ray) (seg_y1 ray) (seg_x2 ray) (seg_y2 ray) t1),
      t1.
    split; [lra | split; [reflexivity | ]].
    apply on_circle_param, root_solves; fold A D; lra.
Qed.

(** ** Further results on is_visible *)

Lemma is_visible_coincident (target source : circle)
  (obstacles : list circle) :
  (circle_x source, circle_y source) = (circle_x target, circle_y target) ->
  is_visible target source obstacles = Ok true.
Proof.
  intros E. injection E as Ex Ey.
  unfold is_visible. rewrite get_tangents_nested_here; [reflexivity | ].
  unfold d_sq. rewrite Ex, Ey. lra.
Qed.

Lemma is_visible_distinct (target source : circle)
  (obstacles : list circle) :
  proper (line_of_sight target source) ->
  is_visible target source obstacles
  = Ok (match fold_left (fun f ic =>
                 closer (line_of_sight target source) (snd ic) f (fst ic))
                (candidates (line_of_sight target source) obstacles) None
        with
        | Some _ => false
        | None => true
        end).
Proof.
  intros Hp. apply is_visible_line; [exact Hp | ].
  now apply (get_first_intersection_closed (line_of_sight target source)).
Qed.

Lemma candidates_blocked (target source : circle) (obstacles : list circle) :
  proper (line_of_sight target source) ->
  (candidates (line_of_sight target source) obstacles <> []
   <-> blocked target source obstacles).
Proof.
  intros Hp. unfold blocked. split.
  - destruct (candidates _ obstacles) as [ | [p c] l] eqn:E;
      [intros N; now elim N | intros _].
    assert (Hin : In (p, c) (candidates (line_of_sight target source)
                               obstacles)) by (rewrite E; now left).
    apply candidates_meet in Hin as [Hc Hm]; [ | exact Hp].
    assert (Hex : exists q, meets (line_of_sight target source) c q)
      by now exists p.
    apply meets_iff_in_disc in Hex as (t & Ht & Hd); [ | exact Hp].
    now exists c, t.
  - intros (c & t & Hc & Ht & Hd).
    assert (Hex : exists q, meets (line_of_sight target source) c q).
    { apply meets_iff_in_disc; [exact Hp | now exists t]. }
    destruct Hex as (q & Hm).
    assert (Hin : In (q, c) (candidates (line_of_sight target source)
                               obstacles)) by now apply candidates_meet.
    intros E. rewrite E in Hin. destruct Hin.
Qed.

Lemma is_visible_decide
  (target source : circle) (obstacles : list circle) :
  (proper (line_of_sight target source)
   /\ blocked target source obstacles
   /\ is_visible target source obstacles = Ok false)
  \/ (~ (proper (line_of_sight target source)
         /\ blocked target source obstacles)
      /\ is_visible target source obstacles = Ok true).
Proof.
  destruct (coincident_or_proper (line_of_sight target source)) as [Hc | Hp].
  - cbn [line_of_sight seg_x1 seg_y1 seg_x2 seg_y2] in Hc.
    right. split; [ | now apply is_visible_coincident].
    intros [Hp _]. now apply Hp.
  - pose proof (candidates_blocked target source obstacles Hp) as Hb.
    rewrite is_visible_distinct by exact Hp.
    destruct (fold_left _ _ None) as [hit | ] eqn:E.
    + left. split; [exact Hp | split; [ | reflexivity]].
      apply Hb. intros N. rewrite N in E. discriminate.
    + right. split; [ | reflexivity].
      apply fold_step_none in E. intros [_ H]. now apply Hb in H.
Qed.

(** X14: With no obstacles every target is visible from every source. *)
Theorem is_visible_no_obstacles (target source : circle) :
  is_visible target source [] = Ok true.
Proof.
  destruct (tangents_of_centres target source) as [[_ E] | [_ Hne]].
  - now apply is_visible_coincident.
  - now rewrite is_visible_distinct.
Qed.

(** X15: [is_visible] answers [False] exactly when the two centres differ and
    some obstacle's closed disc contains a point of the half-line from the
    source's centre through the target's centre, and [True] otherwise: in
    particular a target at the source's own centre is visible through any
    obstacles. *)
Theorem is_visible_blocked_iff
  (target source : circle) (obstacles : list circle) :
  (is_visible target source obstacles = Ok false
   <-> proper (line_of_sight target source)
       /\ blocked target source obstacles)
  /\ (is_visible target source obstacles = Ok true
      <-> ~ (proper (line_of_sight target source)
             /\ blocked target source obstacles)).
Proof.
  destruct (is_visible_decide target source obstacles)
    as [(Hp & Hb & E) | (Hn & E)]; rewrite E.
  - split; split; try discriminate; try tauto.
  - split; split; try discriminate; try tauto.
Qed.

(** X16: An obstacle whose disc contains the centre of the source or of the
    target hides the target, provided the two centres differ. *)
Theorem is_visible_endpoint_covered
  (target source : circle) (obstacles : list circle) (c : circle) :
  (circle_x source, circle_y source) <> (circle_x target, circle_y target) ->
  In c obstacles ->
  in_disc c (circle_x source, circle_y source)
  \/ in_disc c (circle_x target, circle_y target) ->
  is_visible target source obstacles = Ok false.
Proof.
  intros Hne Hc Hin.
  destruct (is_visible_decide target source obstacles)
    as [(_ & _ & E) | (Hn & _)]; [exact E | ].
  elim Hn. split; [exact Hne | ].
  destruct Hin as [Hs | Ht].
  - exists c, 0. split; [exact Hc | split; [lra | ]].
    unfold in_disc, point_at, at_param, line_of_sight in *.
    cbn [fst snd seg_x1 seg_y1 seg_x2 seg_y2] in *.
    replace (circle_x source + 0 * (circle_x target - circle_x source))
      with (circle_x source) by ring.
    replace (circle_y source + 0 * (circle_y target - circle_y source))
      with (circle_y source) by ring.
    exact Hs.
  - exists c, 1. split; [exact Hc | split; [lra | ]].
    unfold in_disc, point_at, at_param, line_of_sight in *.
    cbn [fst snd seg_x1 seg_y1 seg_x2 seg_y2] in *.
    replace (circle_x source + 1 * (circle_x target - circle_x source))
      with (circle_x target) by ring.
    replace (circle_y source + 1 * (circle_y target - circle_y source))
      with (circle_y target) by ring.
    exact Ht.
Qed.

(** A source at (0,0) inside the obstacle of radius 5 about (1,0), and a
    target at (2,0) inside it as well. *)
Lemma is_visible_endpoint_covered_witness :
  is_visible (Circle 2 0 0) (Circle 0 0 0) [Circle 1 0 5] = Ok false.
Proof.
  apply (is_visible_endpoint_covered (Circle 2 0 0) (Circle 0 0 0)
           [Circle 1 0 5] (Circle 1 0 5)).
  - cbn [circle_x circle_y]. intros E. apply (f_equal fst) in E.
    cbn in E. lra.
  - now left.
  - left. unfold in_disc. cbn [fst snd circle_x circle_y circle_r]. lra.
Defined.

(** X17: Obstacle lists combine by conjunction: the target is visible through
    [obstacles1 ++ obstacles2] exactly when it is visible through each. *)
Theorem is_visible_app
  (target source : circle) (obstacles1 obstacles2 : list circle) :
  exists b1 b2,
    is_visible target source obstacles1 = Ok b1
    /\ is_visible target source obstacles2 = Ok b2
    /\ is_visible target source (obstacles1 ++ obstacles2) = Ok (b1 && b2).
Proof.
  destruct (coincident_or_proper (line_of_sight target source)) as [Hc | Hp].
  - cbn [line_of_sight seg_x1 seg_y1 seg_x2 seg_y2] in Hc.
    exists true, true. now rewrite !is_visible_coincident.
  - rewrite !is_visible_distinct by exact Hp.
    do 2 eexists. split; [reflexivity | split; [reflexivity | ]].
    rewrite candidates_app. f_equal.
    destruct (fold_left _ (candidates _ obstacles1) None) as [h1 | ] eqn:E1.
    + cbn [andb].
      destruct (fold_left _ (candidates _ obstacles1 ++ _) None)
        as [h | ] eqn:E; [reflexivity | ].
      apply fold_step_none in E. apply app_eq_nil in E as [E _].
      rewrite E in E1. discriminate.
    + apply fold_step_none in E1. rewrite E1. reflexivity.
Qed.

(** ** main: the radius and the loop *)

Lemma main_handle_event_radius (st : loop_state) (e : event) :
  (10 <= radius st <= 200)%Z /\ (radius st mod 10 = 0)%Z ->
  (10 <= radius (main_handle_event st e) <= 200)%Z
  /\ (radius (main_handle_event st e) mod 10 = 0)%Z.
Proof.
  intros [Hb Hm].
  assert (Hup : (radius st < 200 -> radius st + 10 <= 200)%Z).
  { intros Hlt.
    pose proof (Z.div_mod (radius st) 10 ltac:(lia)) as Hd.
    rewrite Hm in Hd. lia. }
  assert (Hdown : (radius st > 10 -> 10 <= radius st - 10)%Z).
  { intros Hgt.
    pose proof (Z.div_mod (radius st) 10 ltac:(lia)) as Hd.
    rewrite Hm in Hd. lia. }
  assert (Hmp : ((radius st + 10) mod 10 = 0)%Z).
  { replace (radius st + 10)%Z with (radius st + 1 * 10)%Z by lia.
    now rewrite Z.mod_add by lia. }
  assert (Hmm : ((radius st - 10) mod 10 = 0)%Z).
  { replace (radius st - 10)%Z with (radius st + (-1) * 10)%Z by lia.
    now rewrite Z.mod_add by lia. }
  destruct e as [ | button | ]; cbn [main_handle_event radius running];
    try (split; assumption).
  destruct (button =? 4)%Z eqn:E4, (button =? 5)%Z eqn:E5;
    destruct (radius st <? 200)%Z eqn:L;
    cbn [andb radius running];
    try (destruct (radius st + 10 >? 10)%Z eqn:G1);
    try (destruct (radius st >? 10)%Z eqn:G2);
    cbn [andb radius running];
    try apply Z.eqb_eq in E4; try apply Z.eqb_eq in E5;
    try apply Z.ltb_lt in L; try apply Z.gtb_lt in G2;
    try (split; assumption); try lia;
    split; (assumption || lia).
Qed.

Lemma main_events_radius (events : list event) (st : loop_state) :
  (10 <= radius st <= 200)%Z /\ (radius st mod 10 = 0)%Z ->
  (10 <= radius (main_events st events) <= 200)%Z
  /\ (radius (main_events st events) mod 10 = 0)%Z.
Proof.
  revert st. induction events as [ | e es IH]; intros st H; [exact H | ].
  cbn [main_events fold_left]. apply IH. now apply main_handle_event_radius.
Qed.

(** X18: Whatever events arrive, the radius of the circle under the mouse stays
    a multiple of 10 between 10 and 200. *)
Theorem main_radius_invariant (frames : list (list event)) :
  (10 <= radius (main_frames frames) <= 200)%Z
  /\ (radius (main_frames frames) mod 10 = 0)%Z.
Proof.
  unfold main_frames.
  assert (H0 : (10 <= radius main_initial <= 200)%Z
               /\ (radius main_initial mod 10 = 0)%Z)
    by (cbn; split; [lia | reflexivity]).
  revert H0. generalize main_initial.
  induction frames as [ | evs rest IH]; intros st H.
  - cbn [main_loop]. now destruct (running st).
  - cbn [main_loop]. destruct (running st); [ | exact H].
    apply IH. now apply main_events_radius.
Qed.








(** The model runs: scrolling up twice, then a frame with [QUIT] and a
    scroll down, leaves the radius at 110 and ends the loop. *)
Example main_frames_run :
  main_frames [[MOUSEBUTTONDOWN 4]; [MOUSEBUTTONDOWN 4];
               [QUIT; MOUSEBUTTONDOWN 5]; [MOUSEBUTTONDOWN 5]]
  = LoopState false 110.
Proof. reflexivity. Qed.

(** ** main: one frame *)

Lemma mouse_d_sq_IZR (position : Z * Z) :
  d_sq (IZR (fst position)) (IZR (snd position)) 200 200
  = IZR (mouse_d_sq position).
Proof.
  unfold d_sq, mouse_d_sq.
  rewrite plus_IZR.
  change 2%Z with (Z.of_nat 2).
  rewrite <- !pow_IZR, !minus_IZR. reflexivity.
Qed.

Lemma radius_minus_IZR (radius : Z) :
  (IZR radius - 100) ^ 2 = IZR ((radius - 100) ^ 2).
Proof.
  change 2%Z with (Z.of_nat 2). rewrite <- pow_IZR, minus_IZR. reflexivity.
Qed.

Lemma radius_plus_IZR (radius : Z) :
  (IZR radius + 100) ^ 2 = IZR ((radius + 100) ^ 2).
Proof.
  change 2%Z with (Z.of_nat 2). rewrite <- pow_IZR, plus_IZR. reflexivity.
Qed.

Lemma main_hits_total (circles : list circle) (tangents : list segment) :
  (forall t, In t tangents ->
             exists r, get_first_intersection circles t = Ok r) ->
  exists hits,
    main_hits circles tangents = Ok hits
    /\ List.length hits = List.length tangents.
Proof.
  unfold main_hits.
  assert (G : forall ts acc,
             (forall t, In t ts ->
                exists r, get_first_intersection circles t = Ok r) ->
             exists hits,
               for_each ts acc (fun hits t =>
                 hit <- get_first_intersection circles t ;;
                 Ok (hits ++ [hit])) = Ok hits
               /\ List.length hits
                  = (List.length acc + List.length ts)%nat).
  { induction ts as [ | t ts IH]; intros acc H.
    - exists acc. split; [reflexivity | cbn; lia].
    - destruct (H t (or_introl eq_refl)) as (r & E).
      cbn [for_each]. rewrite E. cbn [bind].
      destruct (IH (acc ++ [r])) as (hits & Eh & Hl).
      { intros t' Ht'. apply H. now right. }
      exists hits. split; [exact Eh | ].
      rewrite Hl, length_app. cbn. lia. }
  intros H. destruct (G tangents [] H) as (hits & E & Hl).
  exists hits. split; [exact E | exact Hl].
Qed.

(** The three ways a frame can go. *)
Lemma main_frame_cases (circles : list circle) (position : Z * Z)
  (radius : Z) :
  ((mouse_d_sq position <= (radius - 100) ^ 2)%Z ->
   main_frame circles position radius = Crash IndexError)
  /\ (((radius - 100) ^ 2 < mouse_d_sq position)%Z ->
      mouse_d_sq position = ((radius + 100) ^ 2)%Z ->
      circles <> [] ->
      main_frame circles position radius
      = Crash (Numeric ZeroDivisionError))
  /\ (((radius - 100) ^ 2 < mouse_d_sq position)%Z ->
      mouse_d_sq position <> ((radius + 100) ^ 2)%Z \/ circles = [] ->
      exists corners hits,
        main_frame circles position radius = Done (corners, hits)
        /\ List.length corners = 4%nat).
Proof.
  unfold main_frame, main_tangents.
  split; [ | split].
  - intros Hn. rewrite get_tangents_nested_here; [reflexivity | ].
    rewrite mouse_d_sq_IZR, radius_minus_IZR. now apply IZR_le.
  - intros Ha Ht Hc.
    assert (Ha' : (IZR radius - 100) ^ 2
                  < d_sq (IZR (fst position)) (IZR (snd position)) 200 200).
    { rewrite mouse_d_sq_IZR, radius_minus_IZR. now apply IZR_lt. }
    assert (Ht' : d_sq (IZR (fst position)) (IZR (snd position)) 200 200
                  = (IZR radius + 100) ^ 2).
    { rewrite mouse_d_sq_IZR, radius_plus_IZR. now f_equal. }
    destruct (touching_shape _ _ _ _ _ _ Ha' Ht') as (E & Hext & Hint).
    rewrite E. cbn [main_polygon nth_error].
    destruct (get_first_intersection_total circles _
                (Hext 1 ltac:(lra))) as (h1 & E1).
    destruct (get_first_intersection_total circles _
                (Hext (-1) ltac:(lra))) as (h2 & E2).
    destruct circles as [ | c cs]; [now elim Hc | ].
    pose proof (get_first_intersection_degenerate c cs _
                  (Hint 1 ltac:(lra))) as Z1.
    unfold main_hits. cbn [for_each]. rewrite E1. cbn [bind].
    rewrite E2. cbn [bind]. rewrite Z1. reflexivity.
  - intros Ha Hor.
    assert (Ha' : (IZR radius - 100) ^ 2
                  < d_sq (IZR (fst position)) (IZR (snd position)) 200 200).
    { rewrite mouse_d_sq_IZR, radius_minus_IZR. now apply IZR_lt. }
    pose proof (cosine_plus_small _ _ _ _ _ _ Ha') as Hc1.
    assert (Hex : exists tangents t0 t1 rest,
               get_tangents (IZR (fst position)) (IZR (snd position))
                 (IZR radius) 200 200 100 = Ok tangents
               /\ tangents = t0 :: t1 :: rest
               /\ forall t, In t tangents ->
                    exists r, get_first_intersection circles t = Ok r).
    { destruct Hor as [Hne | ->].
      - assert (Hne' : d_sq (IZR (fst position)) (IZR (snd position)) 200 200
                       <> (IZR radius + 100) ^ 2).
        { rewrite mouse_d_sq_IZR, radius_plus_IZR. intros E.
          apply eq_IZR in E. contradiction. }
        destruct (get_tangents_total (IZR (fst position))
                    (IZR (snd position)) (IZR radius) 200 200 100)
          as (res & E).
        assert (Hall : forall t, In t res ->
                   exists r, get_first_intersection circles t = Ok r).
        { intros t Ht. apply get_first_intersection_total.
          now apply (member_proper _ _ _ _ _ _ res t Hne' E). }
        pose proof E as E'.
        rewrite get_tangents_apart, family_feasible in E' by (lra || exact Ha').
        cbn [app] in E'. injection E' as E'.
        exists res. do 3 eexists.
        split; [exact E | split; [symmetry; exact E' | ]].
        intros t Ht. now apply Hall.
      - eexists. do 3 eexists.
        split; [now apply get_tangents_apart | ].
        rewrite family_feasible by lra. cbn [app].
        split; [reflexivity | ].
        intros t _. now exists None. }
    destruct Hex as (tangents & t0 & t1 & rest & E & -> & Hall).
    rewrite E. cbn [main_polygon nth_error].
    destruct (main_hits_total circles _ Hall) as (hits & Eh & _).
    rewrite Eh. now do 2 eexists.
Qed.

(** X20: A frame ends in [IndexError], at [tangents[0]], exactly when the circle
    under the mouse and the fixed circle of radius 100 about (200, 200) are
    nested: one inside the other, or equal. *)
Theorem main_frame_index_error (circles : list circle)
  (position : Z * Z) (radius : Z) :
  main_frame circles position radius = Crash IndexError
  <-> (mouse_d_sq position <= (radius - 100) ^ 2)%Z.
Proof.
  destruct (main_frame_cases circles position radius) as (Hn & Ht & Hd).
  split; [ | exact Hn].
  intros E.
  destruct (Z.le_gt_cases (mouse_d_sq position) ((radius - 100) ^ 2))
    as [Hle | Hgt]; [exact Hle | exfalso].
  assert (Ha : ((radius - 100) ^ 2 < mouse_d_sq position)%Z) by lia.
  destruct (Z.eq_dec (mouse_d_sq position) ((radius + 100) ^ 2))
    as [Heq | Hne].
  - destruct circles as [ | c cs].
    + destruct (Hd Ha (or_intror eq_refl)) as (co & hi & E' & _).
      rewrite E in E'. discriminate.
    + rewrite Ht in E by (assumption || discriminate). discriminate.
  - destruct (Hd Ha (or_introl Hne)) as (co & hi & E' & _).
    rewrite E in E'. discriminate.
Qed.


(** X22: Whenever the two circles are not nested the polygon gets its four
    corners, also when only two tangents exist: the first two lie on the
    circle under the mouse and the last two on the fixed circle. *)
Theorem main_polygon_corners (position : Z * Z) (radius : Z) :
  (0 <= radius)%Z ->
  ((radius - 100) ^ 2 < mouse_d_sq position)%Z ->
  exists tangents p0 p1 p2 p3,
    main_tangents position radius = Ok tangents
    /\ main_polygon tangents = Done [p0; p1; p2; p3]
    /\ distance (fst p0) (snd p0) (IZR (fst position)) (IZR (snd position))
       = IZR radius
    /\ distance (fst p1) (snd p1) (IZR (fst position)) (IZR (snd position))
       = IZR radius
    /\ distance (fst p2) (snd p2) 200 200 = 100
    /\ distance (fst p3) (snd p3) 200 200 = 100.
Proof.
  intros Hr Ha.
  assert (Ha' : (IZR radius - 100) ^ 2
                < d_sq (IZR (fst position)) (IZR (snd position)) 200 200).
  { rewrite mouse_d_sq_IZR, radius_minus_IZR. now apply IZR_lt. }
  pose proof (cosine_plus_small _ _ _ _ _ _ Ha') as Hc1.
  assert (Hr' : 0 <= IZR radius) by now apply IZR_le.
  unfold main_tangents.
  rewrite get_tangents_apart, family_feasible by (lra || exact Ha').
  cbn [app]. do 5 eexists.
  split; [reflexivity | ].
  cbn [main_polygon nth_error]. split; [reflexivity | ].
  cbn [fst snd].
  split; [apply tangent_first_on_circle; (assumption || lra) | ].
  split; [apply tangent_first_on_circle; (assumption || lra) | ].
  split; apply tangent_second_on_circle; (assumption || lra).
Qed.

(** The mouse at (500, 200) with the starting radius 100. *)
Lemma main_polygon_corners_witness :
  exists tangents p0 p1 p2 p3,
    main_tangents (500, 200)%Z 100 = Ok tangents
    /\ main_polygon tangents = Done [p0; p1; p2; p3]
    /\ distance (fst p0) (snd p0) 500 200 = 100
    /\ distance (fst p1) (snd p1) 500 200 = 100
    /\ distance (fst p2) (snd p2) 200 200 = 100
    /\ distance (fst p3) (snd p3) 200 200 = 100.
Proof.
  apply (main_polygon_corners (500, 200)%Z 100).
  - lia.
  - cbn. lia.
Defined.

(** The model runs: at the mouse position (200, 200) with the starting
    radius the circles coincide and the frame ends in [IndexError]; at
    (400, 200) they touch and the frame divides by zero. *)
Example main_frame_crashes (c : circle) (cs : list circle) :
  main_frame (c :: cs) (200, 200)%Z 100 = Crash IndexError
  /\ main_frame (c :: cs) (400, 200)%Z 100
     = Crash (Numeric ZeroDivisionError).
Proof.
  destruct (main_frame_cases (c :: cs) (200, 200)%Z 100) as (Hn & _ & _).
  destruct (main_frame_cases (c :: cs) (400, 200)%Z 100) as (_ & Ht & _).
  split.
  - apply Hn. cbn. lia.
  - apply Ht; [cbn; lia | reflexivity | discriminate].
Qed.

(** ** evolution.py: SingleGene *)


Lemma frac_part_range (x : R) : 0 <= frac_part x < 1.
Proof. destruct (base_fp x) as [H0 H1]. lra. Qed.

Lemma clip_unit_range (x : R) : 0 <= Rmin 1 (Rmax x 0) <= 1.
Proof.
  unfold Rmin, Rmax.
  destruct (Rle_dec x 0); destruct (Rle_dec 1 _); lra.
Qed.


Lemma bounce_range (x : R) :
  0 <= (if Rgt_dec (frac_part x) (1 / 2) then 1 - frac_part x
        else frac_part x) <= 1 / 2.
Proof.
  pose proof (frac_part_range x).
  destruct (Rgt_dec (frac_part x) (1 / 2)); lra.
Qed.


(** What [clamp] leaves in [value], mode by mode. *)
Lemma clamp_value (g : Evolution.SingleGene) :
  Evolution.value (Evolution.clamp g)
  = map (fun x =>
           match Evolution.mode g with
           | Evolution.CLIP => Rmin 1 (Rmax x 0)
           | Evolution.WRAP => frac_part x
           | Evolution.BOUNCE =>
               if Rgt_dec (frac_part x) (1 / 2) then 1 - frac_part x
               else frac_part x
           end) (Evolution.value g).
Proof.
  unfold Evolution.clamp.
  destruct (Evolution.mode g); cbn [Evolution.with_value Evolution.value].
  - reflexivity.
  - reflexivity.
  - unfold Evolution.np_where_bounce, Evolution.np_mod1.
    now rewrite map_map.
Qed.

Lemma clamp_fields (g : Evolution.SingleGene) :
  Evolution.name (Evolution.clamp g) = Evolution.name g
  /\ Evolution.dimension (Evolution.clamp g) = Evolution.dimension g
  /\ Evolution.min_value (Evolution.clamp g) = Evolution.min_value g
  /\ Evolution.max_value (Evolution.clamp g) = Evolution.max_value g
  /\ Evolution.mode (Evolution.clamp g) = Evolution.mode g.
Proof.
  unfold Evolution.clamp. destruct (Evolution.mode g) eqn:E;
    cbn; repeat split; now rewrite ?E.
Qed.

Lemma clamp_in_unit (g : Evolution.SingleGene) :
  Evolution.in_unit (Evolution.value (Evolution.clamp g))
  /\ List.length (Evolution.value (Evolution.clamp g))
     = List.length (Evolution.value g).
Proof.
  rewrite clamp_value. unfold Evolution.in_unit.
  split; [ | apply length_map].
  apply Forall_forall. intros y Hy.
  apply in_map_iff in Hy as (x & <- & _).
  destruct (Evolution.mode g).
  - apply clip_unit_range.
  - pose proof (frac_part_range x). lra.
  - pose proof (bounce_range x). lra.
Qed.



(** X25: [set_value] accepts exactly a sequence of [dimension] numbers, and
    then stores it clamped: the stored value has [dimension] components,
    all in [0, 1].  A sequence of another length fails the assertion; a
    number fails at [len] with [TypeError]. *)
Theorem set_value_spec (g : Evolution.SingleGene) :
  (forall l, List.length l = Evolution.dimension g ->
     exists g',
       Evolution.set_value g (Evolution.Sequence l) = Evolution.Ret g'
       /\ g' = Evolution.clamp (Evolution.with_value g l)
       /\ List.length (Evolution.value g') = Evolution.dimension g'
       /\ Evolution.in_unit (Evolution.value g'))
  /\ (forall l, List.length l <> Evolution.dimension g ->
       Evolution.set_value g (Evolution.Sequence l)
       = Evolution.Throw Evolution.AssertionError)
  /\ (forall x,
       Evolution.set_value g (Evolution.Scalar x)
       = Evolution.Throw Evolution.TypeError).
Proof.
  split; [ | split].
  - intros l E. cbn [Evolution.set_value].
    rewrite (proj2 (Nat.eqb_eq _ _) E).
    eexists. split; [reflexivity | split; [reflexivity | ]].
    destruct (clamp_in_unit (Evolution.with_value g l)) as (Hu & Hl).
    destruct (clamp_fields (Evolution.with_value g l)) as (_ & Hd & _).
    split; [ | exact Hu].
    rewrite Hl, Hd. exact E.
  - intros l N. cbn [Evolution.set_value].
    now rewrite (proj2 (Nat.eqb_neq _ _) N).
  - reflexivity.
Qed.



(** ** evolution.py: LinkedGene *)

Lemma clip_weight_range (x : R) :
  Evolution.MINIMUM_WEIGHT
  <= Rmin Evolution.MAXIMUM_WEIGHT (Rmax x Evolution.MINIMUM_WEIGHT)
  <= Evolution.MAXIMUM_WEIGHT.
Proof.
  unfold Evolution.MINIMUM_WEIGHT, Evolution.MAXIMUM_WEIGHT, Rmin, Rmax.
  destruct (Rle_dec x (1 / 1000)); destruct (Rle_dec (999 / 1000) _); lra.
Qed.

Lemma np_sum_div (l : list R) (s : R) :
  Evolution.np_sum (map (fun w => w / s) l) = Evolution.np_sum l / s.
Proof.
  induction l as [ | x l IH]; cbn [map Evolution.np_sum fold_right].
  - unfold Rdiv. ring.
  - fold (Evolution.np_sum (map (fun w => w / s) l)).
    fold (Evolution.np_sum l). rewrite IH. unfold Rdiv. ring.
Qed.

Lemma np_sum_lower (l : list R) (m : R) :
  Forall (fun x => m <= x) l ->
  INR (List.length l) * m <= Evolution.np_sum l.
Proof.
  induction 1 as [ | x l Hx Hl IH].
  - cbn. lra.
  - cbn [List.length Evolution.np_sum fold_right].
    fold (Evolution.np_sum l). rewrite S_INR. lra.
Qed.

Lemma np_sum_member (l : list R) (x : R) :
  Forall (fun y => 0 <= y) l -> In x l -> x <= Evolution.np_sum l.
Proof.
  induction 1 as [ | y l Hy Hl IH]; intros Hin; [destruct Hin | ].
  cbn [Evolution.np_sum fold_right]. fold (Evolution.np_sum l).
  assert (Hs : 0 <= Evolution.np_sum l).
  { pose proof (np_sum_lower l 0 Hl) as H. lra. }
  destruct Hin as [-> | Hin]; [lra | ].
  specialize (IH Hin). lra.
Qed.

(** X27: [normalize] on at least one weight: the new weights add up to 1, each
    is positive and at most 1, and there are as many as before, whatever
    the weights were.  The bound [MAXIMUM_WEIGHT] is not kept by the
    division: a single weight always becomes 1. *)
Theorem normalize_sums_to_one (lg : Evolution.LinkedGene) :
  Evolution.weights lg <> [] ->
  Evolution.np_sum (Evolution.weights (Evolution.normalize lg)) = 1
  /\ Forall (fun w => 0 < w <= 1) (Evolution.weights (Evolution.normalize lg))
  /\ List.length (Evolution.weights (Evolution.normalize lg))
     = List.length (Evolution.weights lg)
  /\ (List.length (Evolution.weights lg) = 1%nat ->
      Evolution.weights (Evolution.normalize lg) = [1])
  /\ Evolution.genes (Evolution.normalize lg) = Evolution.genes lg.
Proof.
  intros Hne.
  unfold Evolution.normalize. cbn [Evolution.weights Evolution.genes].
  set (clipped := Evolution.np_clip (Evolution.weights lg)
                    Evolution.MINIMUM_WEIGHT Evolution.MAXIMUM_WEIGHT).
  assert (Hr : Forall (fun x => Evolution.MINIMUM_WEIGHT <= x) clipped).
  { apply Forall_forall. intros y Hy. unfold clipped, Evolution.np_clip in Hy.
    apply in_map_iff in Hy as (x & <- & _). apply clip_weight_range. }
  assert (Hlen : List.length clipped = List.length (Evolution.weights lg))
    by apply length_map.
  assert (Hn : 1 <= INR (List.length clipped)).
  { rewrite Hlen. destruct (Evolution.weights lg) as [ | w ws];
      [now elim Hne | ].
    cbn [List.length]. rewrite S_INR. pose proof (pos_INR (List.length ws)).
    lra. }
  pose proof (np_sum_lower clipped _ Hr) as Hlow.
  assert (Hmin : Evolution.MINIMUM_WEIGHT = 1 / 1000) by reflexivity.
  assert (Hpos : 0 < Evolution.np_sum clipped) by nra.
  assert (H0 : Forall (fun y => 0 <= y) clipped).
  { revert Hr. apply Forall_impl. intros a Ha. lra. }
  split; [ | split; [ | split; [ | split]]].
  - rewrite np_sum_div. field. lra.
  - apply Forall_forall. intros y Hy.
    apply in_map_iff in Hy as (x & <- & Hx).
    pose proof (np_sum_member clipped x H0 Hx) as Hle.
    assert (Hxm : Evolution.MINIMUM_WEIGHT <= x)
      by (apply (proj1 (Forall_forall _ _) Hr x Hx)).
    split.
    + apply Rdiv_lt_0_compat; lra.
    + apply Rmult_le_reg_r with (Evolution.np_sum clipped); [exact Hpos | ].
      replace (x / Evolution.np_sum clipped * Evolution.np_sum clipped)
        with x by (field; lra).
      lra.
  - rewrite length_map. exact Hlen.
  - intros H1. rewrite <- Hlen in H1.
    destruct clipped as [ | x [ | y l]]; try discriminate.
    cbn [map Evolution.np_sum fold_right]. f_equal.
    cbn [Evolution.np_sum fold_right] in Hpos. field. lra.
  - reflexivity.
Qed.

(** Three weights far outside the clipping bounds. *)
Lemma normalize_sums_to_one_witness :
  Evolution.np_sum
    (Evolution.weights
       (Evolution.normalize (Evolution.Build_LinkedGene 1 [] [5; -3; 0])))
  = 1
  /\ Forall (fun w => 0 < w <= 1)
       (Evolution.weights
          (Evolution.normalize (Evolution.Build_LinkedGene 1 [] [5; -3; 0])))
  /\ List.length
       (Evolution.weights
          (Evolution.normalize (Evolution.Build_LinkedGene 1 [] [5; -3; 0])))
     = List.length
         (Evolution.weights (Evolution.Build_LinkedGene 1 [] [5; -3; 0]))
  /\ (List.length
        (Evolution.weights (Evolution.Build_LinkedGene 1 [] [5; -3; 0]))
      = 1%nat ->
      Evolution.weights
        (Evolution.normalize (Evolution.Build_LinkedGene 1 [] [5; -3; 0]))
      = [1])
  /\ Evolution.genes
       (Evolution.normalize (Evolution.Build_LinkedGene 1 [] [5; -3; 0]))
     = Evolution.genes (Evolution.Build_LinkedGene 1 [] [5; -3; 0]).
Proof.
  apply (normalize_sums_to_one (Evolution.Build_LinkedGene 1 [] [5; -3; 0])).
  cbn [Evolution.weights]. discriminate.
Defined.

Lemma np_sum_repeat (x : R) (n : nat) :
  Evolution.np_sum (repeat x n) = INR n * x.
Proof.
  induction n as [ | n IH].
  - cbn. lra.
  - cbn [repeat Evolution.np_sum fold_right].
    fold (Evolution.np_sum (repeat x n)). rewrite IH, S_INR. ring.
Qed.

Lemma map_repeat_const {X Y : Type} (f : X -> Y) (x : X) (n : nat) :
  map f (repeat x n) = repeat (f x) n.
Proof.
  induction n as [ | n IH]; [reflexivity | ].
  cbn [repeat map]. now rewrite IH.
Qed.

Lemma forallb_is_clip (genes : list Evolution.SingleGene) :
  forallb Evolution.is_clip genes = false
  <-> exists g, In g genes /\ Evolution.mode g <> Evolution.CLIP.
Proof.
  induction genes as [ | g gs IH]; cbn [forallb].
  - split; [discriminate | intros (g & [] & _)].
  - unfold Evolution.is_clip at 1.
    destruct (Evolution.mode g) eqn:E; cbn [andb].
    + rewrite IH. split.
      * intros (g' & Hin & Hm). exists g'. split; [now right | exact Hm].
      * intros (g' & [<- | Hin] & Hm); [congruence | now exists g'].
    + split; [intros _ | reflexivity].
      exists g. split; [now left | congruence].
    + split; [intros _ | reflexivity].
      exists g. split; [now left | congruence].
Qed.

Lemma init_linked_ok (genes : list Evolution.SingleGene) :
  forallb Evolution.is_clip genes = true ->
  Evolution.init_linked genes
  = Evolution.Ret
      (Evolution.Build_LinkedGene 1 genes
         (repeat (1 / INR (List.length genes)) (List.length genes))).
Proof.
  intros E. unfold Evolution.init_linked. rewrite E.
  unfold Evolution.normalize.
  cbn [Evolution.strength Evolution.genes Evolution.weights].
  do 2 f_equal.
  unfold Evolution.np_clip.
  rewrite !map_repeat_const, np_sum_repeat.
  destruct genes as [ | g gs]; [reflexivity | ].
  f_equal.
  assert (Hn : 0 < INR (List.length (g :: gs))).
  { cbn [List.length]. rewrite S_INR.
    pose proof (pos_INR (List.length gs)). lra. }
  assert (Hc : Rmin Evolution.MAXIMUM_WEIGHT
                 (Rmax 1 Evolution.MINIMUM_WEIGHT) = 999 / 1000).
  { unfold Evolution.MINIMUM_WEIGHT, Evolution.MAXIMUM_WEIGHT, Rmin, Rmax.
    destruct (Rle_dec 1 (1 / 1000)); destruct (Rle_dec (999 / 1000) _);
      lra. }
  rewrite Hc. field. lra.
Qed.

Lemma forallb_all_clip (genes : list Evolution.SingleGene) :
  (forall g, In g genes -> Evolution.mode g = Evolution.CLIP) ->
  forallb Evolution.is_clip genes = true.
Proof.
  intros Hall. destruct (forallb Evolution.is_clip genes) eqn:E;
    [reflexivity | ].
  apply forallb_is_clip in E as (g & Hin & Hm). elim Hm. now apply Hall.
Qed.

(** X28: [LinkedGene.__init__] fails its assertion exactly when one of the genes
    is not in mode CLIP; otherwise the new object has strength 1, the genes
    given, and one weight [1/n] for each of the [n] genes. *)
Theorem init_linked_spec (genes : list Evolution.SingleGene) :
  (Evolution.init_linked genes = Evolution.Throw Evolution.AssertionError
   <-> exists g, In g genes /\ Evolution.mode g <> Evolution.CLIP)
  /\ ((forall g, In g genes -> Evolution.mode g = Evolution.CLIP) ->
      exists lg,
        Evolution.init_linked genes = Evolution.Ret lg
        /\ Evolution.strength lg = 1
        /\ Evolution.genes lg = genes
        /\ Evolution.weights lg
           = repeat (1 / INR (List.length genes)) (List.length genes)).
Proof.
  split.
  - destruct (forallb Evolution.is_clip genes) eqn:E.
    + rewrite init_linked_ok by exact E.
      split; [discriminate | ].
      intros H. apply forallb_is_clip in H. congruence.
    + unfold Evolution.init_linked. rewrite E.
      apply forallb_is_clip in E. split; [intros _; exact E | reflexivity].
  - intros Hall. eexists.
    split; [apply init_linked_ok; now apply forallb_all_clip | ].
    now repeat split.
Qed.

(** [update_genes] cannot succeed on any gene: it reads [weights[i]] and
    hands [set_value] a number, which has no [len].  With no genes it does
    nothing; with genes and no weights the indexing fails first. *)
Lemma update_genes_outcome (lg : Evolution.LinkedGene) :
  (Evolution.genes lg = [] ->
   Evolution.update_genes lg = Evolution.Ret lg)
  /\ (Evolution.genes lg <> [] -> Evolution.weights lg = [] ->
      Evolution.update_genes lg = Evolution.Throw Evolution.IndexError)
  /\ (Evolution.genes lg <> [] -> Evolution.weights lg <> [] ->
      Evolution.update_genes lg = Evolution.Throw Evolution.TypeError).
Proof.
  destruct lg as [s gs ws]. unfold Evolution.update_genes.
  cbn [Evolution.genes Evolution.weights Evolution.strength].
  split; [ | split].
  - intros ->. reflexivity.
  - intros Hg ->. destruct gs as [ | g rest]; [now elim Hg | reflexivity].
  - intros Hg Hw.
    destruct gs as [ | g rest]; [now elim Hg | ].
    destruct ws as [ | w rest']; [now elim Hw | reflexivity].
Qed.

(** X29: A [LinkedGene] built from one gene or more, all in mode CLIP, can
    never be mutated: for every variance that is not negative [mutate]
    ends in the [TypeError] of [update_genes], and for a negative one in
    the [ValueError] of the draw. *)
Theorem mutate_linked_fails (genes : list Evolution.SingleGene)
  (variance : R) :
  genes <> [] ->
  (forall g, In g genes -> Evolution.mode g = Evolution.CLIP) ->
  exists lg,
    Evolution.init_linked genes = Evolution.Ret lg
    /\ Evolution.mutate_linked lg variance
       = Evolution.Throw (if Rlt_dec variance 0 then Evolution.ValueError
                          else Evolution.TypeError).
Proof.
  intros Hne Hall.
  eexists. split; [apply init_linked_ok; now apply forallb_all_clip | ].
  destruct genes as [ | g gs]; [now elim Hne | ].
  unfold Evolution.mutate_linked.
  cbn [List.length repeat Evolution.weights].
  destruct (Rlt_dec variance 0); [reflexivity | ].
  apply update_genes_outcome; discriminate.
Qed.

(** The two genes of the script's own test run. *)
Lemma mutate_linked_fails_witness :
  exists lg,
    Evolution.init_linked
      [Evolution.init_single "gene1" 0 10 1 Evolution.CLIP;
       Evolution.init_single "gene2" 0 10 1 Evolution.CLIP]
    = Evolution.Ret lg
    /\ Evolution.mutate_linked lg (1 / 20)
       = Evolution.Throw (if Rlt_dec (1 / 20) 0 then Evolution.ValueError
                          else Evolution.TypeError).
Proof.
  apply (mutate_linked_fails
           [Evolution.init_single "gene1" 0 10 1 Evolution.CLIP;
            Evolution.init_single "gene2" 0 10 1 Evolution.CLIP] (1 / 20)).
  - discriminate.
  - intros g [<- | [<- | []]]; reflexivity.
Defined.
